(** * A shallow embedding of the audio pipeline of rust-audio-visualization

    The modelled files are [src/audio/processor.rs] (the FFT analyzer
    [AudioProcessor]), [src/audio/sample_broadcaster.rs] (the pass-through
    tap [SampleBroadcaster]) and [src/audio/manager.rs] (the playback engine
    [AudioManager] and the body of its processing thread).

    Samples are [f32] in the source; here they are real numbers, so the
    arithmetic of the analyzer is the exact arithmetic the [f32] code
    approximates.  Effects of the external libraries (rodio sinks, rustfft,
    mpsc channels, thread joins) are explicit inputs of the model: an
    arbitrary FFT routine, an arbitrary sequence of channel outcomes, an
    arbitrary file system. *)

From Stdlib Require Import String Ascii.
From Stdlib Require Import List Arith NArith Lia Bool Reals Lra.
Import ListNotations.

(* ------------------------------------------------------------------ *)
(** ** processor.rs *)

Module Processor.

Definition Complex : Type := (R * R)%type.

(** [Complex::norm] *)
Definition norm (c : Complex) : R :=
  sqrt (fst c * fst c + snd c * snd c)%R.

Record AudioAnalysisData := mkAudioAnalysisData {
  rms_amplitude : R;
  peak_amplitude : R;
  frequency_magnitudes : list R;
  data_fft_size : nat
}.

(** The FFT plan is cached by [FftPlanner]; caching has no observable effect
    and is not modelled. *)
Record AudioProcessor := mkAudioProcessor {
  fft_size : nat;
  window : list R;
  fft_input_buffer : list Complex;
  fft_output_buffer : list Complex;
  sample_buffer : list R
}.

(** [hann_window] *)
Definition hann_window (size : nat) : list R :=
  match size with
  | O => []
  | _ =>
      let norm_factor := Rmax (INR size - 1) 1 in
      map (fun i => 0.5 * (1 - cos (2 * PI * INR i / norm_factor)))%R
          (seq 0 size)
  end.

(** [AudioProcessor::new] *)
Definition new (fft_size : nat) : AudioProcessor :=
  {| fft_size := fft_size;
     window := hann_window fft_size;
     fft_input_buffer := repeat (0%R, 0%R) fft_size;
     fft_output_buffer := repeat (0%R, 0%R) fft_size;
     sample_buffer := [] |}.

(** One iteration of the [for i in 0..self.fft_size] loop, on the two
    accumulators [peak_amplitude] and [rms_sum_sq]. *)
Definition metrics_step (acc : R * R) (sample : R) : R * R :=
  let '(peak_amplitude, rms_sum_sq) := acc in
  let abs_sample := Rabs sample in
  ((if Rlt_dec peak_amplitude abs_sample then abs_sample else peak_amplitude),
   (rms_sum_sq + sample * sample)%R).

(** The same loop writes [fft_input_buffer[i] = sample * window[i]]. *)
Definition windowed_input (frame window : list R) : list Complex :=
  map (fun '(sample, w) => ((sample * w)%R, 0%R)) (combine frame window).

Section ProcessSamples.

(** [fft.process_with_scratch(&mut input, &mut output)]: the rustfft call
    receives the two buffers as mutable slices and returns their new
    contents.  Slices have a fixed length.  The call panics when the
    scratch slice is shorter than the plan's in-place scratch length; that
    panic is left out here and modelled on the processing thread's loop
    ([PipelineFacts.run_checked]).  The code's [f32] samples and metrics
    are exact reals. *)
Variable fft_process : list Complex -> list Complex -> list Complex * list Complex.

(** [AudioProcessor::process_samples]; returns the result together with the
    processor's new state. *)
Definition process_samples (p : AudioProcessor) (new_samples : list R)
  : option AudioAnalysisData * AudioProcessor :=
  let buf := sample_buffer p ++ new_samples in
  let n := fft_size p in
  if n <=? length buf then
    let frame := firstn n buf in
    let '(peak_amplitude, rms_sum_sq) := fold_left metrics_step frame (0%R, 0%R) in
    let input := windowed_input frame (window p) in
    let rms_amplitude := sqrt (rms_sum_sq / INR n)%R in
    let '(input', output') := fft_process input (fft_output_buffer p) in
    let num_freq_bins := n / 2 + 1 in
    let frequency_magnitudes :=
      map (fun c => (norm c / INR n)%R) (firstn num_freq_bins output') in
    (Some {| rms_amplitude := rms_amplitude;
             peak_amplitude := peak_amplitude;
             frequency_magnitudes := frequency_magnitudes;
             data_fft_size := n |},
     {| fft_size := n;
        window := window p;
        fft_input_buffer := input';
        fft_output_buffer := output';
        sample_buffer := skipn n buf |})
  else
    (None,
     {| fft_size := n;
        window := window p;
        fft_input_buffer := fft_input_buffer p;
        fft_output_buffer := fft_output_buffer p;
        sample_buffer := buf |}).

(** Successive calls of [process_samples] on a sequence of chunks. *)
Fixpoint process_all (p : AudioProcessor) (chunks : list (list R))
  : list (option AudioAnalysisData) * AudioProcessor :=
  match chunks with
  | [] => ([], p)
  | c :: rest =>
      let '(r, p1) := process_samples p c in
      let '(rs, p2) := process_all p1 rest in
      (r :: rs, p2)
  end.

End ProcessSamples.

(** The number of calls that returned a record. *)
Fixpoint count_records (rs : list (option AudioAnalysisData)) : nat :=
  match rs with
  | [] => 0
  | Some _ :: rest => S (count_records rest)
  | None :: rest => count_records rest
  end.

(** A concrete in-place transform used to run the analyzer on examples: it
    leaves both slices as they are. *)
Definition fft_identity (input scratch : list Complex) : list Complex * list Complex :=
  (input, scratch).

End Processor.

(* ------------------------------------------------------------------ *)
(** ** sample_broadcaster.rs *)

Module Broadcaster.

(** A decoded rodio source of [f32] samples: the samples still to come and
    the metadata reported by the [Source] trait. *)
Record Source := mkSource {
  src_samples : list R;
  src_channels : nat;
  src_sample_rate : nat;
  src_total_duration : option nat
}.

(** [Iterator::next] of the wrapped source. *)
Definition source_next (s : Source) : option R * Source :=
  match src_samples s with
  | [] => (None, s)
  | x :: rest =>
      (Some x, {| src_samples := rest; src_channels := src_channels s;
                  src_sample_rate := src_sample_rate s;
                  src_total_duration := src_total_duration s |})
  end.

(** Outcome of [SyncSender::try_send]. *)
Inductive TrySendResult := SendOk | SendFull | SendDisconnected.

(** [SampleBroadcaster]: [buffer] is the [Vec<f32>] together with its
    [capacity()]; [send_attempts] counts the sends made on the chunk channel
    and [sent] collects the chunks the channel accepted. *)
Record SampleBroadcaster := mkSampleBroadcaster {
  source : Source;
  buffer : list R;
  buffer_capacity : nat;
  send_attempts : nat;
  sent : list (list R)
}.

(** [Vec::push] on a full vector: [RawVec::grow_amortized], with
    [MIN_NON_ZERO_CAP = 4] for 4-byte elements. *)
Definition grow_capacity (cap : nat) : nat := Nat.max 4 (Nat.max (cap * 2) (cap + 1)).

(** [SampleBroadcaster::new] *)
Definition new (source : Source) (buffer_capacity : nat) : SampleBroadcaster :=
  {| source := source; buffer := []; buffer_capacity := buffer_capacity;
     send_attempts := 0; sent := [] |}.

(** The [Source] impl of [SampleBroadcaster]: plain delegation. *)
Definition channels (b : SampleBroadcaster) : nat := src_channels (source b).
Definition sample_rate (b : SampleBroadcaster) : nat := src_sample_rate (source b).
Definition total_duration (b : SampleBroadcaster) : option nat := src_total_duration (source b).

Section Next.

(** The chunk channel, seen from the sender: the outcome of the [k]-th send.
    Any interleaving with the processing thread (channel with free space,
    full, or with its receiver gone) is one such function.  A blocking
    [send] waits while the channel is full, so it fails only on a
    disconnected channel. *)
Variable chunk_channel : nat -> TrySendResult.

(** [SampleBroadcaster::next] *)
Definition next (b : SampleBroadcaster) : option R * SampleBroadcaster :=
  let '(o, src') := source_next (source b) in
  match o with
  | Some sample =>
      let cap := if length (buffer b) =? buffer_capacity b
                 then grow_capacity (buffer_capacity b) else buffer_capacity b in
      let buf := buffer b ++ [sample] in
      if length buf =? cap then
        let k := send_attempts b in
        let sent' := match chunk_channel k with
                     | SendOk => sent b ++ [buf]
                     | SendFull | SendDisconnected => sent b
                     end in
        (Some sample,
         {| source := src'; buffer := []; buffer_capacity := cap;
            send_attempts := S k; sent := sent' |})
      else
        (Some sample,
         {| source := src'; buffer := buf; buffer_capacity := cap;
            send_attempts := send_attempts b; sent := sent b |})
  | None =>
      match buffer b with
      | [] => (None, {| source := src'; buffer := buffer b;
                        buffer_capacity := buffer_capacity b;
                        send_attempts := send_attempts b; sent := sent b |})
      | _ :: _ =>
          let k := send_attempts b in
          let sent' := match chunk_channel k with
                       | SendDisconnected => sent b
                       | SendOk | SendFull => sent b ++ [buffer b]
                       end in
          (None, {| source := src'; buffer := []; buffer_capacity := buffer_capacity b;
                    send_attempts := S k; sent := sent' |})
      end
  end.

(** What the playback caller (the rodio sink) pulls: [next] repeatedly,
    until it returns [None] or the fuel runs out. *)
Fixpoint pull (fuel : nat) (b : SampleBroadcaster) : list R * SampleBroadcaster :=
  match fuel with
  | O => ([], b)
  | S f =>
      match next b with
      | (Some x, b1) => let '(xs, b2) := pull f b1 in (x :: xs, b2)
      | (None, b1) => ([], b1)
      end
  end.

(** The whole stream: one pull per sample plus the final end of stream. *)
Definition forwarded (b : SampleBroadcaster) : list R :=
  fst (pull (S (length (src_samples (source b)))) b).

End Next.

End Broadcaster.

(* ------------------------------------------------------------------ *)
(** ** manager.rs: the body of the processing thread *)

Module Worker.

(** [Iterator::step_by]: the first element, then [nth(step - 1)] of the
    rest, repeatedly.  The fuel is the length of the slice. *)
Fixpoint step_by_fuel {A} (fuel step : nat) (l : list A) : list A :=
  match fuel with
  | O => []
  | S f =>
      match l with
      | [] => []
      | x :: rest => x :: step_by_fuel f step (skipn (step - 1) rest)
      end
  end.

Definition step_by {A} (step : nat) (l : list A) : list A :=
  step_by_fuel (length l) step l.

(** The branch on [source_channels] in the [Ok(samples)] arm: the slice
    handed to [processor.process_samples], if any. *)
Definition mono_input (source_channels : nat) (samples : list R) : option (list R) :=
  if source_channels =? 1 then Some samples
  else if (1 <? source_channels) && negb (match samples with [] => true | _ => false end)
  then Some (step_by source_channels samples)
  else None.

(** The samples the analyzer receives for one chunk ([[]] when it is not
    called at all). *)
Definition fed_samples (source_channels : nat) (samples : list R) : list R :=
  match mono_input source_channels samples with Some xs => xs | None => [] end.

(** The [Ok(samples)] arm: the analysis result and the analyzer's new state. *)
Definition on_chunk fft (source_channels : nat) (processor : Processor.AudioProcessor)
  (samples : list R) : option Processor.AudioAnalysisData * Processor.AudioProcessor :=
  match mono_input source_channels samples with
  | Some xs => Processor.process_samples fft processor xs
  | None => (None, processor)
  end.

(** The result of [stop_receiver.try_recv()] at the top of the loop. *)
Inductive StopPoll := NoSignal | Signalled | StopDisconnected.

(** The result of [sample_chunk_receiver.recv_timeout(200 ms)]. *)
Inductive Recv := RecvChunk (samples : list R) | RecvTimeout | RecvDisconnected.

(** What one iteration of the loop observes; [analysis_send] is the outcome
    of [analysis_sender.try_send] if a record is produced. *)
Record Tick := mkTick {
  poll : StopPoll;
  recv : Recv;
  analysis_send : Broadcaster.TrySendResult
}.

Inductive Exit := ExitStopped | ExitChunkDisconnected | ExitAnalysisDisconnected | Running.

(** The processing thread's [loop]: the records accepted by the analysis
    channel, the analyzer's final state and why the loop ended
    ([Running] when the observed iterations run out). *)
Fixpoint run fft (source_channels : nat) (processor : Processor.AudioProcessor)
  (ticks : list Tick) : list Processor.AudioAnalysisData * Processor.AudioProcessor * Exit :=
  match ticks with
  | [] => ([], processor, Running)
  | t :: rest =>
      match poll t with
      | Signalled | StopDisconnected => ([], processor, ExitStopped)
      | NoSignal =>
          match recv t with
          | RecvTimeout => run fft source_channels processor rest
          | RecvDisconnected => ([], processor, ExitChunkDisconnected)
          | RecvChunk samples =>
              let '(r, p1) := on_chunk fft source_channels processor samples in
              match r with
              | None => run fft source_channels p1 rest
              | Some data =>
                  match analysis_send t with
                  | Broadcaster.SendOk =>
                      let '(ds, p2, e) := run fft source_channels p1 rest in
                      (data :: ds, p2, e)
                  | Broadcaster.SendFull => run fft source_channels p1 rest
                  | Broadcaster.SendDisconnected => ([], p1, ExitAnalysisDisconnected)
                  end
              end
          end
      end
  end.

End Worker.

(* ------------------------------------------------------------------ *)
(** ** manager.rs: the playback engine *)

Module Manager.

Inductive PlaybackState := Idle | Loaded | Playing | Paused.

Definition PlaybackState_eqb (a b : PlaybackState) : bool :=
  match a, b with
  | Idle, Idle | Loaded, Loaded | Playing, Playing | Paused, Paused => true
  | _, _ => false
  end.

(** A rodio [Sink]: whether it is paused, how many appended sources have not
    finished yet ([sink.empty()] is [sink_sources = 0]), and its volume. *)
Record Sink := mkSink {
  sink_paused : bool;
  sink_sources : nat;
  sink_volume : R
}.

Definition sink_empty (s : Sink) : bool := sink_sources s =? 0.

(** [sink.play()] and [sink.pause()] *)
Definition sink_play (s : Sink) : Sink :=
  {| sink_paused := false; sink_sources := sink_sources s; sink_volume := sink_volume s |}.
Definition sink_pause (s : Sink) : Sink :=
  {| sink_paused := true; sink_sources := sink_sources s; sink_volume := sink_volume s |}.

(** Thread handles and stop-signal senders are named by the id of the
    session that created them.  The output stream and its handle are only
    kept alive by the manager and are not modelled. *)
Definition JoinHandle := nat.
Definition StopSender := nat.

Record AudioManager := mkAudioManager {
  sink : option Sink;
  processing_thread_handle : option JoinHandle;
  stop_signal_sender : option StopSender;
  current_file_path : option string;
  state : PlaybackState;
  current_volume : R
}.

(** The side effects the control thread performs on objects it does not
    own: stopping a sink, sending a stop signal, joining a thread. *)
Inductive Event :=
  | SinkStopped
  | StopSignalSent (sender : StopSender)
  | ThreadJoined (handle : JoinHandle).

(** [AudioManager::stop_playback_and_processing]; [handle.join()] returns
    once the thread has finished. *)
Definition stop_playback_and_processing (m : AudioManager) : list Event * AudioManager :=
  let ev1 := match sink m with Some _ => [SinkStopped] | None => [] end in
  let ev2 := match stop_signal_sender m with Some s => [StopSignalSent s] | None => [] end in
  let ev3 := match processing_thread_handle m with Some h => [ThreadJoined h] | None => [] end in
  (ev1 ++ ev2 ++ ev3,
   {| sink := None; processing_thread_handle := None; stop_signal_sender := None;
      current_file_path := current_file_path m; state := Idle;
      current_volume := current_volume m |}).

(** [AudioManager::pause_playback] *)
Definition pause_playback (m : AudioManager) : AudioManager :=
  match state m, sink m with
  | Playing, Some s =>
      if negb (sink_paused s) then
        {| sink := Some (sink_pause s);
           processing_thread_handle := processing_thread_handle m;
           stop_signal_sender := stop_signal_sender m;
           current_file_path := current_file_path m; state := Paused;
           current_volume := current_volume m |}
      else m
  | _, _ => m
  end.

(** [AudioManager::resume_playback] *)
Definition resume_playback (m : AudioManager) : AudioManager :=
  match state m, sink m with
  | Paused, Some s =>
      if sink_paused s then
        {| sink := Some (sink_play s);
           processing_thread_handle := processing_thread_handle m;
           stop_signal_sender := stop_signal_sender m;
           current_file_path := current_file_path m; state := Playing;
           current_volume := current_volume m |}
      else m
  | _, _ => m
  end.

(** [AudioManager::check_and_update_finished_state].  The thread handle and
    the stop sender are taken and put back; the only effect is the stop
    signal sent when playback has finished. *)
Definition check_and_update_finished_state (m : AudioManager) : list Event * AudioManager :=
  let '(sink_finished, m1) :=
    match sink m with
    | Some s => (sink_empty s && PlaybackState_eqb (state m) Playing, m)
    | None =>
        match state m with
        | Playing | Paused =>
            (false, {| sink := sink m;
                       processing_thread_handle := processing_thread_handle m;
                       stop_signal_sender := stop_signal_sender m;
                       current_file_path := current_file_path m; state := Idle;
                       current_volume := current_volume m |})
        | _ => (false, m)
        end
    end in
  if sink_finished then
    (match stop_signal_sender m1 with Some s => [StopSignalSent s] | None => [] end,
     {| sink := sink m1;
        processing_thread_handle := processing_thread_handle m1;
        stop_signal_sender := stop_signal_sender m1;
        current_file_path := current_file_path m1; state := Loaded;
        current_volume := current_volume m1 |})
  else ([], m1).

(** A Rust [String] is UTF-8: the model keeps its bytes, and decodes them
    into [char]s (the scalar value and the bytes encoding it) the way
    [str::chars] does.  Only valid UTF-8 arises from a Rust [String]; the
    fallbacks for truncated sequences are never taken on one. *)
Fixpoint utf8_chars (s : string) : list (N * string) :=
  match s with
  | EmptyString => []
  | String b rest =>
      let n := N_of_ascii b in
      if (n <? 192)%N then (n, String b EmptyString) :: utf8_chars rest
      else if (n <? 224)%N then
        match rest with
        | String c1 rest1 =>
            (((n - 192) * 64 + (N_of_ascii c1 - 128))%N, String b (String c1 EmptyString))
              :: utf8_chars rest1
        | EmptyString => [(n, s)]
        end
      else if (n <? 240)%N then
        match rest with
        | String c1 (String c2 rest2) =>
            ((((n - 224) * 64 + (N_of_ascii c1 - 128)) * 64 + (N_of_ascii c2 - 128))%N,
             String b (String c1 (String c2 EmptyString)))
              :: utf8_chars rest2
        | _ => [(n, s)]
        end
      else
        match rest with
        | String c1 (String c2 (String c3 rest3)) =>
            (((((n - 240) * 64 + (N_of_ascii c1 - 128)) * 64 + (N_of_ascii c2 - 128)) * 64
               + (N_of_ascii c3 - 128))%N,
             String b (String c1 (String c2 (String c3 EmptyString))))
              :: utf8_chars rest3
        | _ => [(n, s)]
        end
  end.

(** The bytes of a sequence of decoded [char]s. *)
Definition string_of_chars (cs : list (N * string)) : string :=
  fold_right (fun c acc => String.append (snd c) acc) EmptyString cs.

(** [char::is_whitespace]: the Unicode White_Space property, U+0009 to
    U+000D, U+0020, U+0085, U+00A0, U+1680, U+2000 to U+200A, U+2028,
    U+2029, U+202F, U+205F and U+3000. *)
Definition is_whitespace (c : N) : bool :=
  (((9 <=? c) && (c <=? 13)) || (c =? 32) || (c =? 133) || (c =? 160) ||
  (c =? 5760) || ((8192 <=? c) && (c <=? 8202)) || (c =? 8232) || (c =? 8233) ||
  (c =? 8239) || (c =? 8287) || (c =? 12288))%N.

Fixpoint drop_whitespace (cs : list (N * string)) : list (N * string) :=
  match cs with
  | [] => []
  | c :: rest => if is_whitespace (fst c) then drop_whitespace rest else cs
  end.

(** [str::trim_start] *)
Definition trim_start (s : string) : string :=
  string_of_chars (drop_whitespace (utf8_chars s)).

(** [str::trim_end] *)
Definition trim_end (s : string) : string :=
  string_of_chars (rev (drop_whitespace (rev (utf8_chars s)))).

(** [str::trim]: [trim_matches(char::is_whitespace)]. *)
Definition trim (s : string) : string := trim_end (trim_start s).

Definition is_empty (s : string) : bool :=
  match s with EmptyString => true | _ => false end.

(** The error kinds of [load_and_play_file]; the code returns a formatted
    [String] whose prefix names the failing step. *)
Inductive LoadError :=
  | InvalidInput      (* "File path cannot be empty." *)
  | IoError           (* "Failed to open file ..." *)
  | DecodeError       (* "Failed to decode file ..." *)
  | ThreadSpawnError  (* "Failed to spawn processing thread ..." *)
  | DeviceError.      (* "Failed to create sink ..." *)

Inductive Result (E : Type) := Ok | Err (e : E).
Arguments Ok {E}.
Arguments Err {E} e.

(** The outside world seen by [load_and_play_file]: the file system and
    decoder ([File::open], [Decoder::new]), the thread builder and the
    output device ([Sink::try_new]), and the id given to the new session's
    thread and stop channel. *)
Record Env := mkEnv {
  file_opens : string -> bool;
  decodes : string -> option Broadcaster.Source;
  spawn_ok : bool;
  sink_ok : bool;
  session_id : nat
}.

(** [AudioManager::load_and_play_file].  The new sink holds one source,
    the [SampleBroadcaster] around the decoded file. *)
Definition load_and_play_file (m : AudioManager) (file_path : string) (env : Env)
  : list Event * Result LoadError * AudioManager :=
  if is_empty (trim file_path) then ([], Err InvalidInput, m)
  else
    let '(ev, m1) := stop_playback_and_processing m in
    if negb (file_opens env file_path) then (ev, Err IoError, m1)
    else
      match decodes env file_path with
      | None => (ev, Err DecodeError, m1)
      | Some _ =>
          let id := session_id env in
          let m2 := {| sink := sink m1;
                       processing_thread_handle := processing_thread_handle m1;
                       stop_signal_sender := Some id;
                       current_file_path := Some file_path; state := state m1;
                       current_volume := current_volume m1 |} in
          if negb (spawn_ok env) then (ev, Err ThreadSpawnError, m2)
          else
            let m3 := {| sink := sink m2; processing_thread_handle := Some id;
                         stop_signal_sender := stop_signal_sender m2;
                         current_file_path := current_file_path m2; state := state m2;
                         current_volume := current_volume m2 |} in
            if negb (sink_ok env) then (ev, Err DeviceError, m3)
            else
              let s := {| sink_paused := false; sink_sources := 1;
                          sink_volume := current_volume m3 |} in
              (ev, Ok,
               {| sink := Some s; processing_thread_handle := processing_thread_handle m3;
                  stop_signal_sender := stop_signal_sender m3;
                  current_file_path := current_file_path m3; state := Playing;
                  current_volume := current_volume m3 |})
      end.

(** [f32::clamp] (NaN is not modelled). *)
Definition clamp (v lo hi : R) : R :=
  let v1 := if Rlt_dec v lo then lo else v in
  if Rlt_dec hi v1 then hi else v1.

(** [AudioManager::new]; [None] when [OutputStream::try_default] fails. *)
Definition new (stream_ok : bool) (volume : option R) : option AudioManager :=
  if stream_ok then
    Some {| sink := None; processing_thread_handle := None; stop_signal_sender := None;
            current_file_path := None; state := Idle;
            current_volume := clamp (match volume with Some v => v | None => 0%R end) 0 1 |}
  else None.

(** [AudioManager::set_output_volume] *)
Definition set_output_volume (m : AudioManager) (volume : R) : AudioManager :=
  let v := clamp volume 0 1 in
  {| sink := match sink m with
             | Some s => Some {| sink_paused := sink_paused s; sink_sources := sink_sources s;
                                 sink_volume := v |}
             | None => None
             end;
     processing_thread_handle := processing_thread_handle m;
     stop_signal_sender := stop_signal_sender m;
     current_file_path := current_file_path m; state := state m;
     current_volume := v |}.

(** [AudioManager::get_state] and [AudioManager::get_current_file_path] *)
Definition get_state (m : AudioManager) : PlaybackState := state m.
Definition get_current_file_path (m : AudioManager) : option string := current_file_path m.

(** Outside the control thread, the output device plays the sink: an
    appended source that reaches its end leaves the sink. *)
Definition sink_source_finished (s : Sink) : Sink :=
  {| sink_paused := sink_paused s; sink_sources := pred (sink_sources s);
     sink_volume := sink_volume s |}.

(** One step of the engine: a call of one of its public operations by the
    control thread ([Drop] is [stop_playback_and_processing]), or a source
    of the sink finishing on the device. *)
Inductive engine_step : AudioManager -> AudioManager -> Prop :=
  | step_load m path env ev r m' :
      load_and_play_file m path env = (ev, r, m') -> engine_step m m'
  | step_pause m : engine_step m (pause_playback m)
  | step_resume m : engine_step m (resume_playback m)
  | step_volume m v : engine_step m (set_output_volume m v)
  | step_check m : engine_step m (snd (check_and_update_finished_state m))
  | step_stop m : engine_step m (snd (stop_playback_and_processing m))
  | step_source_finished m s :
      sink m = Some s -> sink_sources s <> 0 ->
      engine_step m
        {| sink := Some (sink_source_finished s);
           processing_thread_handle := processing_thread_handle m;
           stop_signal_sender := stop_signal_sender m;
           current_file_path := current_file_path m; state := state m;
           current_volume := current_volume m |}.

(** The engine invariant: the volume is within [0, 1] and is the sink's
    volume, and the state agrees with the sink ([Paused]: a paused sink;
    [Playing]: a sink that is not paused; [Loaded]: an empty sink). *)
Definition engine_inv (m : AudioManager) : Prop :=
  (0 <= current_volume m <= 1)%R /\
  (forall s, sink m = Some s -> sink_volume s = current_volume m) /\
  (state m = Paused -> exists s, sink m = Some s /\ sink_paused s = true) /\
  (state m = Playing -> exists s, sink m = Some s /\ sink_paused s = false) /\
  (state m = Loaded -> exists s, sink m = Some s /\ sink_empty s = true).

(** The engines the program can reach: built by [new], then stepped. *)
Inductive reachable : AudioManager -> Prop :=
  | reach_new v m : new true v = Some m -> reachable m
  | reach_step m m' : reachable m -> engine_step m m' -> reachable m'.

End Manager.

(* ------------------------------------------------------------------ *)
(** ** app.rs: the uses of the engine by the UI *)

Module App.
Import Manager.

(** [while let Ok(data) = self.audio_analysis_receiver.try_recv()
    { self.current_audio_data = Some(data); }], on the records queued in
    the analysis channel. *)
Definition drain_analysis (current : option Processor.AudioAnalysisData)
  (queued : list Processor.AudioAnalysisData) : option Processor.AudioAnalysisData :=
  fold_left (fun _ data => Some data) queued current.

(** The label and enabled flag of the Play button, computed in
    [AudioVisualizerApp::update] before the click is handled (the branch
    where the [AudioManager] was created). *)
Definition play_button (m : AudioManager) (file_path_input : string) : string * bool :=
  let current_path_is_target :=
    match get_current_file_path m with Some p => String.eqb p file_path_input | None => false end in
  let has_file := match get_current_file_path m with Some _ => true | None => false end in
  match get_state m with
  | Idle => ("Play"%string, negb (is_empty file_path_input))
  | Loaded =>
      if current_path_is_target || (is_empty file_path_input && has_file)
      then ("Play Loaded"%string, true)
      else ("Play New File"%string, negb (is_empty file_path_input))
  | Playing =>
      if current_path_is_target then ("Pause Current"%string, true)
      else ("Play New File"%string, negb (is_empty file_path_input))
  | Paused =>
      if current_path_is_target || (is_empty file_path_input && has_file)
      then ("Resume"%string, true)
      else ("Play New File"%string, negb (is_empty file_path_input))
  end.

Inductive ActionError := LoadFailed (e : LoadError) | NoFilePath.

(** The click handler of the Play button in [AudioVisualizerApp::update]:
    the error stored in [action_error_message] and the engine. *)
Definition play_clicked (m : AudioManager) (file_path_input : string) (env : Env)
  : option ActionError * AudioManager :=
  let load path :=
    match load_and_play_file m path env with
    | (_, Ok, m') => (None, m')
    | (_, Err e, m') => (Some (LoadFailed e), m')
    end in
  let manager_knows_current_file :=
    match get_current_file_path m with Some p => String.eqb p file_path_input | None => false end in
  let input_is_empty_but_manager_has_file :=
    is_empty file_path_input &&
    match get_current_file_path m with Some _ => true | None => false end in
  match get_state m with
  | Playing =>
      if manager_knows_current_file then (None, pause_playback m) else load file_path_input
  | Paused =>
      if manager_knows_current_file || input_is_empty_but_manager_has_file
      then (None, resume_playback m) else load file_path_input
  | Idle | Loaded =>
      let target_path :=
        match input_is_empty_but_manager_has_file, get_current_file_path m with
        | true, Some p => p
        | _, _ => file_path_input
        end in
      if negb (is_empty target_path) then load target_path else (Some NoFilePath, m)
  end.

End App.

(* ================================================================== *)
(** * Properties *)

Module ProcessorFacts.
Import Processor.

(** Spec-side reading of the two amplitude metrics over a window of raw
    samples: the largest absolute value, and the sum of squares. *)
Definition spec_max_abs (w : list R) : R :=
  fold_right (fun x m => Rmax (Rabs x) m) 0%R w.

Definition spec_sum_sq (w : list R) : R :=
  fold_right (fun x s => (x * x + s)%R) 0%R w.

Fixpoint sum_len (chunks : list (list R)) : nat :=
  match chunks with
  | [] => 0
  | c :: rest => length c + sum_len rest
  end.

Lemma fold_metrics (w : list R) (pk ss : R) :
  (0 <= pk)%R ->
  fold_left metrics_step w (pk, ss) = (Rmax pk (spec_max_abs w), (ss + spec_sum_sq w)%R).
Proof.
  revert pk ss; induction w as [|x w IH]; intros pk ss Hpk; simpl.
  - rewrite Rmax_left by lra. f_equal. lra.
  - unfold metrics_step at 1.
    assert (Hm : (if Rlt_dec pk (Rabs x) then Rabs x else pk) = Rmax pk (Rabs x)).
    { unfold Rmax. destruct (Rlt_dec pk (Rabs x)), (Rle_dec pk (Rabs x)); lra. }
    rewrite Hm, IH.
    + rewrite Rmax_assoc. f_equal. lra.
    + apply Rle_trans with pk; [exact Hpk | apply Rmax_l].
Qed.

Lemma process_samples_below fft (p : AudioProcessor) (c : list R) :
  length (sample_buffer p ++ c) < fft_size p ->
  process_samples fft p c =
    (None, {| fft_size := fft_size p; window := window p;
              fft_input_buffer := fft_input_buffer p;
              fft_output_buffer := fft_output_buffer p;
              sample_buffer := sample_buffer p ++ c |}).
Proof.
  intros H. unfold process_samples.
  destruct (Nat.leb_spec (fft_size p) (length (sample_buffer p ++ c))); [lia|].
  reflexivity.
Qed.

Section WithFft.

Variable fft : list Complex -> list Complex -> list Complex * list Complex.

(** rustfft works on [&mut] slices: the scratch slice keeps its length. *)
Hypothesis fft_scratch_len : forall i s, length (snd (fft i s)) = length s.

Lemma process_samples_above (p : AudioProcessor) (c : list R) :
  fft_size p <= length (sample_buffer p ++ c) ->
  exists d p',
    process_samples fft p c = (Some d, p') /\
    length (frequency_magnitudes d)
      = Nat.min (fft_size p / 2 + 1) (length (fft_output_buffer p)) /\
    sample_buffer p' = skipn (fft_size p) (sample_buffer p ++ c) /\
    fft_size p' = fft_size p /\
    length (fft_output_buffer p') = length (fft_output_buffer p).
Proof.
  intros H. unfold process_samples.
  destruct (Nat.leb_spec (fft_size p) (length (sample_buffer p ++ c))); [|lia].
  destruct (fold_left metrics_step _ _) as [pk ss].
  destruct (fft _ (fft_output_buffer p)) as [i' o'] eqn:E.
  pose proof (fft_scratch_len (windowed_input (firstn (fft_size p) (sample_buffer p ++ c)) (window p))
                (fft_output_buffer p)) as L.
  rewrite E in L. simpl in L.
  eexists _, _. split; [reflexivity|]. simpl.
  rewrite length_map, length_firstn, L. repeat split.
Qed.

Lemma process_all_below (prefix : list (list R)) (p : AudioProcessor) :
  length (sample_buffer p) + sum_len prefix < fft_size p ->
  process_all fft p prefix =
    (map (fun _ => None) prefix,
     {| fft_size := fft_size p; window := window p;
        fft_input_buffer := fft_input_buffer p;
        fft_output_buffer := fft_output_buffer p;
        sample_buffer := sample_buffer p ++ concat prefix |}).
Proof.
  revert p; induction prefix as [|c rest IH]; intros p H; simpl in *.
  - rewrite app_nil_r. destruct p; reflexivity.
  - rewrite process_samples_below by (rewrite length_app; lia).
    rewrite IH by (simpl; rewrite length_app; lia).
    simpl. rewrite app_assoc. reflexivity.
Qed.

Lemma process_all_app (xs ys : list (list R)) (p : AudioProcessor) :
  process_all fft p (xs ++ ys) =
    let '(rs1, p1) := process_all fft p xs in
    let '(rs2, p2) := process_all fft p1 ys in
    (rs1 ++ rs2, p2).
Proof.
  revert p; induction xs as [|c xs IH]; intros p; simpl.
  - destruct (process_all fft p ys); reflexivity.
  - destruct (process_samples fft p c) as [r p1].
    rewrite IH. destruct (process_all fft p1 xs) as [rs1 q1].
    destruct (process_all fft q1 ys) as [rs2 q2]. reflexivity.
Qed.

End WithFft.

Lemma spec_max_abs_nonneg (w : list R) : (0 <= spec_max_abs w)%R.
Proof.
  induction w as [|x w IH]; simpl; [lra|].
  apply Rle_trans with (spec_max_abs w); [exact IH | apply Rmax_r].
Qed.

Lemma spec_sum_sq_zero (w : list R) :
  Forall (fun x => x = 0%R) w -> spec_sum_sq w = 0%R.
Proof.
  induction 1 as [|x w Hx _ IH]; simpl; [reflexivity|].
  rewrite Hx, IH. ring.
Qed.

Lemma spec_sum_sq_const (w : list R) (A : R) :
  Forall (fun x => Rabs x = A) w -> spec_sum_sq w = (INR (length w) * (A * A))%R.
Proof.
  induction 1 as [|x w Hx _ IH]; simpl length; simpl spec_sum_sq; [simpl; ring|].
  rewrite IH, S_INR.
  assert (Hsq : (x * x = Rabs x * Rabs x)%R)
    by (unfold Rabs; destruct (Rcase_abs x); ring).
  rewrite Hsq, Hx. ring.
Qed.

Lemma spec_max_abs_const (w : list R) (A : R) :
  (0 <= A)%R -> w <> [] -> Forall (fun x => Rabs x = A) w -> spec_max_abs w = A.
Proof.
  intros HA Hne HF. induction HF as [|x w Hx HF IH]; [congruence|].
  simpl. rewrite Hx. destruct w as [|y w'].
  - simpl. apply Rmax_left. exact HA.
  - rewrite IH by discriminate. apply Rmax_left. lra.
Qed.

End ProcessorFacts.

Import Processor ProcessorFacts.

(** C2 (counterexample): an analyzer built with FFT size 0 accepts a call
    with 0 samples and returns a record whose magnitude list is empty, not
    of length [0 / 2 + 1 = 1]: the magnitudes are taken from the scratch
    slice, which has length [N]. *)
Lemma process_samples_size_zero_counterexample :
  ~ (forall (N : nat) (samples : list R), length samples = N ->
       exists d p', process_samples fft_identity (new N) samples = (Some d, p') /\
                    length (frequency_magnitudes d) = N / 2 + 1).
Proof.
  intros H. destruct (H 0 [] eq_refl) as (d & p' & E & L).
  simpl in E. injection E as Ed _. subst d. simpl in L. discriminate.
Qed.

(** C6 (counterexample): with FFT size 2, an empty carry buffer and 4 new
    samples, the call returns a record and leaves 2 samples buffered, which
    is not fewer than [N = 2]: one call extracts one window only. *)
Lemma carry_buffer_not_below_size_counterexample :
  ~ (forall fft (p : AudioProcessor) (new_samples : list R) d p',
       process_samples fft p new_samples = (Some d, p') ->
       length (sample_buffer p') < fft_size p).
Proof.
  intros H.
  pose proof (H fft_identity (new 2) [0; 0; 0; 0]%R) as K.
  simpl in K. specialize (K _ _ eq_refl). simpl in K. lia.
Qed.

(** C6 (amended): after a call of [process_samples] that returns a record,
    the carry buffer holds exactly (previous length + new length - N)
    samples; so it is shorter than [N] whenever fewer than [2 N] samples
    were buffered, in particular when the buffer held fewer than [N]
    samples and the chunk at most [N]. *)
Theorem process_samples_carry_length
  (fft : list Complex -> list Complex -> list Complex * list Complex)
  (p : AudioProcessor) (new_samples : list R) d p'
  (E : process_samples fft p new_samples = (Some d, p')) :
  length (sample_buffer p')
    = length (sample_buffer p) + length new_samples - fft_size p /\
  (length (sample_buffer p) + length new_samples < 2 * fft_size p ->
   length (sample_buffer p') < fft_size p).
Proof.
  unfold process_samples in E.
  destruct (Nat.leb_spec (fft_size p) (length (sample_buffer p ++ new_samples))) as [Hle|Hlt].
  - destruct (fold_left metrics_step _ _) as [pk ss].
    destruct (fft _ _) as [i' o'].
    injection E as _ Ep. subst p'. simpl.
    rewrite length_skipn, length_app. rewrite length_app in Hle. lia.
  - discriminate E.
Qed.

Lemma process_samples_carry_length_witness :
  exists d p', process_samples fft_identity (new 2) [0; 0; 0]%R = (Some d, p') /\
    length (sample_buffer p') = 0 + 3 - 2 /\ (0 + 3 < 2 * 2 -> length (sample_buffer p') < 2).
Proof.
  eexists _, _. split; [reflexivity|].
  exact (process_samples_carry_length fft_identity (new 2) [0; 0; 0]%R _ _ eq_refl).
Defined.

(** C9: for every extracted window [w] of [N] raw samples, the record's
    peak is the largest absolute value of [w] and its RMS is
    [sqrt (sum of squares of w / N)], both over the raw samples (the Hann
    window only enters the FFT input); an all-zero window has RMS 0 and a
    window of samples of absolute value [A] has RMS and peak [A]. *)
Theorem process_samples_raw_amplitudes
  (fft : list Complex -> list Complex -> list Complex * list Complex)
  (p : AudioProcessor) (new_samples : list R)
  (H : fft_size p <= length (sample_buffer p ++ new_samples)) :
  let w := firstn (fft_size p) (sample_buffer p ++ new_samples) in
  match process_samples fft p new_samples with
  | (Some d, _) =>
      peak_amplitude d = spec_max_abs w /\
      rms_amplitude d = sqrt (spec_sum_sq w / INR (fft_size p)) /\
      (Forall (fun x => x = 0%R) w -> rms_amplitude d = 0%R) /\
      (forall A : R, (0 <= A)%R -> 0 < fft_size p ->
         Forall (fun x => Rabs x = A) w ->
         rms_amplitude d = A /\ peak_amplitude d = A)
  | (None, _) => False
  end.
Proof.
  intros w. unfold process_samples.
  destruct (Nat.leb_spec (fft_size p) (length (sample_buffer p ++ new_samples))); [|lia].
  fold w. rewrite fold_metrics by lra.
  destruct (fft _ _) as [i' o']. simpl.
  rewrite Rmax_right by apply spec_max_abs_nonneg.
  rewrite Rplus_0_l.
  assert (Lw : length w = fft_size p) by (apply firstn_length_le; lia).
  split; [reflexivity|]. split; [reflexivity|]. split.
  - intros Hz. rewrite spec_sum_sq_zero by exact Hz.
    unfold Rdiv. rewrite Rmult_0_l. apply sqrt_0.
  - intros A HA Hn HF. split.
    + rewrite (spec_sum_sq_const w A HF), Lw.
      assert (Hpos : (0 < INR (fft_size p))%R) by (apply lt_0_INR; exact Hn).
      replace (INR (fft_size p) * (A * A) / INR (fft_size p))%R with (A * A)%R
        by (field; lra).
      apply sqrt_square. exact HA.
    + apply spec_max_abs_const; [exact HA| |exact HF].
      intros Ew. rewrite Ew in Lw. simpl in Lw. lia.
Qed.

Lemma process_samples_raw_amplitudes_witness :
  2 <= length (sample_buffer (new 2) ++ [1; -1]%R) /\
  let w := firstn 2 (sample_buffer (new 2) ++ [1; -1]%R) in
  match process_samples fft_identity (new 2) [1; -1]%R with
  | (Some d, _) =>
      peak_amplitude d = spec_max_abs w /\
      rms_amplitude d = sqrt (spec_sum_sq w / INR 2) /\
      (Forall (fun x => x = 0%R) w -> rms_amplitude d = 0%R) /\
      (forall A : R, (0 <= A)%R -> 0 < 2 ->
         Forall (fun x => Rabs x = A) w ->
         rms_amplitude d = A /\ peak_amplitude d = A)
  | (None, _) => False
  end.
Proof.
  split; [simpl; lia|].
  exact (process_samples_raw_amplitudes fft_identity (new 2) [1; -1]%R
           ltac:(simpl; lia)).
Defined.

Module BroadcasterFacts.
Import Broadcaster.

Section Chan.

Variable chunk_channel : nat -> TrySendResult.

Lemma next_some (b : SampleBroadcaster) (x : R) (rest : list R) :
  src_samples (source b) = x :: rest ->
  exists b1, next chunk_channel b = (Some x, b1) /\
    src_samples (source b1) = rest /\
    src_channels (source b1) = src_channels (source b) /\
    src_sample_rate (source b1) = src_sample_rate (source b) /\
    src_total_duration (source b1) = src_total_duration (source b).
Proof.
  intros Hs. destruct b as [[ss ch sr td] buf cap k snt]. simpl in Hs. subst ss.
  unfold next. simpl.
  destruct (length buf =? cap); destruct (_ =? _); eexists; split;
    try reflexivity; repeat split.
Qed.

Lemma next_none (b : SampleBroadcaster) :
  src_samples (source b) = [] ->
  exists b1, next chunk_channel b = (None, b1).
Proof.
  intros Hs. destruct b as [[ss ch sr td] buf cap k snt]. simpl in Hs. subst ss.
  unfold next. simpl. destruct buf; eexists; reflexivity.
Qed.

Lemma pull_source (fuel : nat) (b : SampleBroadcaster) :
  length (src_samples (source b)) < fuel ->
  fst (pull chunk_channel fuel b) = src_samples (source b).
Proof.
  revert b; induction fuel as [|f IH]; intros b Hf; [lia|].
  simpl. destruct (src_samples (source b)) as [|x rest] eqn:Hs.
  - destruct (next_none b Hs) as [b1 ->]. reflexivity.
  - destruct (next_some b x rest Hs) as (b1 & -> & Hr & _).
    specialize (IH b1). rewrite Hr in IH. simpl in Hf.
    destruct (pull chunk_channel f b1) as [xs b2]. simpl in *.
    rewrite IH by lia. reflexivity.
Qed.

Lemma pull_metadata (fuel : nat) (b : SampleBroadcaster) :
  channels (snd (pull chunk_channel fuel b)) = channels b /\
  sample_rate (snd (pull chunk_channel fuel b)) = sample_rate b /\
  total_duration (snd (pull chunk_channel fuel b)) = total_duration b.
Proof.
  revert b; induction fuel as [|f IH]; intros b; [repeat split|].
  simpl. destruct (src_samples (source b)) as [|x rest] eqn:Hs.
  - destruct b as [[ss ch sr td] buf cap k snt]. simpl in Hs. subst ss.
    unfold next. simpl. destruct buf; repeat split.
  - destruct (next_some b x rest Hs) as (b1 & -> & _ & Hc & Hr & Hd).
    specialize (IH b1). destruct (pull chunk_channel f b1) as [xs b2].
    simpl in *. unfold channels, sample_rate, total_duration in *.
    destruct IH as (I1 & I2 & I3). rewrite I1, I2, I3. auto.
Qed.

End Chan.

End BroadcasterFacts.

Module WorkerFacts.
Import Worker.

Lemma step_by_fuel_nth {A} (fuel step : nat) (l : list A) :
  1 <= step -> length l <= fuel ->
  forall i, nth_error (step_by_fuel fuel step l) i = nth_error l (i * step).
Proof.
  intros Hstep. revert l; induction fuel as [|f IH]; intros l Hl i.
  - destruct l; simpl in Hl; [|lia]. simpl. rewrite !nth_error_nil. reflexivity.
  - destruct l as [|x rest]; simpl.
    + rewrite !nth_error_nil. reflexivity.
    + destruct i as [|j]; [reflexivity|]. simpl.
      rewrite IH by (rewrite length_skipn; simpl in Hl; lia).
      rewrite nth_error_skipn.
      replace (step + j * step) with (S (step - 1 + j * step)) by lia.
      reflexivity.
Qed.

End WorkerFacts.

Import Broadcaster BroadcasterFacts.

(** The tap on a three-sample source with chunks of two: both sends are
    accepted, the full chunk and then the final partial one. *)
Example tap_chunks_example (a b c : R) :
  let t := Broadcaster.new {| src_samples := [a; b; c]; src_channels := 1;
                              src_sample_rate := 48; src_total_duration := None |} 2 in
  pull (fun _ => SendOk) 4 t =
    ([a; b; c],
     {| source := {| src_samples := []; src_channels := 1;
                     src_sample_rate := 48; src_total_duration := None |};
        buffer := []; buffer_capacity := 2; send_attempts := 2;
        sent := [[a; b]; [c]] |}).
Proof. reflexivity. Qed.

(** C1: for every wrapped source, every tap state and every behaviour of
    the chunk channel (each send accepted, refused as full, or refused as
    disconnected), the samples the tap yields to the playback caller up to
    the end of stream are exactly the source's samples, in order; the tap
    reports the wrapped source's channels, sample rate and total duration,
    before and after any number of pulls. *)
Theorem sample_tap_forwards_source (chunk_channel : nat -> TrySendResult)
  (b : SampleBroadcaster) :
  forwarded chunk_channel b = src_samples (source b) /\
  channels b = src_channels (source b) /\
  sample_rate b = src_sample_rate (source b) /\
  total_duration b = src_total_duration (source b) /\
  (forall fuel,
     channels (snd (pull chunk_channel fuel b)) = src_channels (source b) /\
     sample_rate (snd (pull chunk_channel fuel b)) = src_sample_rate (source b) /\
     total_duration (snd (pull chunk_channel fuel b)) = src_total_duration (source b)).
Proof.
  split; [apply pull_source; lia|].
  split; [reflexivity|]. split; [reflexivity|]. split; [reflexivity|].
  intros fuel. apply pull_metadata.
Qed.

Import Worker WorkerFacts.

Example step_by_three_channels_example :
  Worker.step_by 3 [0; 1; 2; 3; 4; 5; 6; 7] = [0; 3; 6].
Proof. reflexivity. Qed.

(** C4: for a chunk of a source with [C] channels, the analyzer is fed the
    chunk itself when [C = 1], and when [C > 1] the samples at indices
    [0, C, 2C, ...] (the [i]-th fed sample is the chunk's sample [i * C]);
    the worker calls the analyzer on exactly these samples; a two-channel
    chunk [[L0;R0;L1;R1;L2;R2]] is reduced to [[L0;L1;L2]]. *)
Theorem worker_downmix_first_channel (C : nat) (samples : list R) :
  (C = 1 -> fed_samples C samples = samples) /\
  (1 < C -> forall i, nth_error (fed_samples C samples) i = nth_error samples (i * C)) /\
  (forall fft p, 1 <= C -> samples <> [] ->
     on_chunk fft C p samples = process_samples fft p (fed_samples C samples)) /\
  (forall l0 r0 l1 r1 l2 r2 : R,
     fed_samples 2 [l0; r0; l1; r1; l2; r2] = [l0; l1; l2]).
Proof.
  split; [intros ->; reflexivity|].
  split.
  - intros HC i. unfold fed_samples, mono_input.
    destruct (Nat.eqb_spec C 1) as [|_]; [lia|].
    destruct (Nat.ltb_spec 1 C) as [_|]; [|lia].
    destruct samples as [|x r]; simpl.
    + rewrite !nth_error_nil. reflexivity.
    + apply step_by_fuel_nth; simpl; lia.
  - split.
    + intros fft p HC Hne. unfold on_chunk, fed_samples.
      destruct (mono_input C samples) eqn:E; [reflexivity|].
      exfalso. unfold mono_input in E.
      destruct (Nat.eqb_spec C 1); [discriminate|].
      destruct (Nat.ltb_spec 1 C); [|lia].
      destruct samples; [congruence|discriminate].
    + intros. reflexivity.
Qed.

Module ManagerFacts.
Import Manager.

(** An engine in the middle of a session, and the same engine after its
    sink drained while playing: the sink still holds [k] sources. *)
Definition engine_with (st : PlaybackState) (paused : bool) (k : nat) : AudioManager :=
  {| sink := Some {| sink_paused := paused; sink_sources := k; sink_volume := 1%R |};
     processing_thread_handle := Some 0; stop_signal_sender := Some 0;
     current_file_path := Some "a.mp3"%string; state := st;
     current_volume := 1%R |}.

Lemma drop_whitespace_all (cs : list (N * string)) :
  forallb (fun c => is_whitespace (fst c)) cs = true -> drop_whitespace cs = [].
Proof.
  induction cs as [|c cs IH]; simpl; [reflexivity|].
  intros H. apply andb_prop in H as [Hc Hs]. rewrite Hc. exact (IH Hs).
Qed.

Lemma trim_all_whitespace (s : string) :
  forallb (fun c => is_whitespace (fst c)) (utf8_chars s) = true -> trim s = EmptyString.
Proof.
  intros H. unfold trim, trim_start. rewrite (drop_whitespace_all _ H). reflexivity.
Qed.

(** U+00A0 NO-BREAK SPACE, encoded in UTF-8 as the bytes C2 A0. *)
Definition nbsp : string :=
  String (ascii_of_nat 194) (String (ascii_of_nat 160) EmptyString).

Lemma stop_result (m : AudioManager) :
  sink (snd (stop_playback_and_processing m)) = None /\
  processing_thread_handle (snd (stop_playback_and_processing m)) = None /\
  stop_signal_sender (snd (stop_playback_and_processing m)) = None /\
  state (snd (stop_playback_and_processing m)) = Idle.
Proof. repeat split. Qed.

End ManagerFacts.

Import Manager ManagerFacts.

(** [resume_playback] plays a present, paused sink of a [Paused] engine
    and sets [Playing]; in every other case it is a no-op. *)
Lemma resume_playback_cases (m : AudioManager) :
  (forall s, state m = Paused -> sink m = Some s -> sink_paused s = true ->
     resume_playback m =
       {| sink := Some (sink_play s);
          processing_thread_handle := processing_thread_handle m;
          stop_signal_sender := stop_signal_sender m;
          current_file_path := current_file_path m; state := Playing;
          current_volume := current_volume m |}) /\
  (state m <> Paused -> resume_playback m = m) /\
  (forall s, sink m = Some s -> sink_paused s = false -> resume_playback m = m) /\
  (sink m = None -> resume_playback m = m).
Proof.
  unfold resume_playback.
  split; [intros s -> -> ->; reflexivity|].
  split; [intros H; destruct (state m); try reflexivity; congruence|].
  split; [intros s Hs Hp; rewrite Hs, Hp; destruct (state m); reflexivity|].
  intros ->. destruct (state m); reflexivity.
Qed.

(** A world in which every file opens but nothing decodes. *)
Definition env_undecodable : Env :=
  {| file_opens := fun _ => true; decodes := fun _ => None;
     spawn_ok := true; sink_ok := true; session_id := 1 |}.

(** C5 (counterexample): while a session is playing, loading the empty path
    fails with [InvalidInput] and leaves the engine [Playing]: the check
    comes before teardown, so the failing call leaves a playing session. *)
Lemma load_invalid_path_keeps_playing_counterexample :
  ~ (forall m path env ev e m',
       load_and_play_file m path env = (ev, Err e, m') -> state m' <> Playing).
Proof.
  intros H.
  exact (H (engine_with Playing false 1) EmptyString env_undecodable
           [] InvalidInput (engine_with Playing false 1) eq_refl eq_refl).
Qed.

(** C5 (amended): an empty or whitespace-only path fails with
    [InvalidInput] before any teardown and leaves the engine unchanged; a
    file-open or decode failure leaves the engine exactly as teardown left
    it: [Idle], with no sink, no thread handle and no stop sender. *)
Theorem load_failures_leave_teardown_state (m : AudioManager) (path : string)
  (env : Env) :
  (forallb (fun c => is_whitespace (fst c)) (utf8_chars path) = true ->
     load_and_play_file m path env = ([], Err InvalidInput, m)) /\
  (is_empty (trim path) = false -> file_opens env path = false ->
     load_and_play_file m path env
       = (fst (stop_playback_and_processing m), Err IoError,
          snd (stop_playback_and_processing m))) /\
  (is_empty (trim path) = false -> file_opens env path = true ->
     decodes env path = None ->
     load_and_play_file m path env
       = (fst (stop_playback_and_processing m), Err DecodeError,
          snd (stop_playback_and_processing m))) /\
  (sink (snd (stop_playback_and_processing m)) = None /\
   processing_thread_handle (snd (stop_playback_and_processing m)) = None /\
   stop_signal_sender (snd (stop_playback_and_processing m)) = None /\
   state (snd (stop_playback_and_processing m)) = Idle).
Proof.
  unfold load_and_play_file.
  split.
  - intros Hw. rewrite (trim_all_whitespace path Hw). reflexivity.
  - split; [intros -> ->; reflexivity|].
    split; [intros -> -> ->; reflexivity|].
    apply stop_result.
Qed.

Lemma load_failures_leave_teardown_state_witness :
  forallb (fun c => is_whitespace (fst c)) (utf8_chars (String.append " "%string nbsp)) = true /\
  load_and_play_file (engine_with Playing false 1) (String.append " "%string nbsp) env_undecodable
    = ([], Err InvalidInput, engine_with Playing false 1).
Proof.
  split; [reflexivity|].
  apply (load_failures_leave_teardown_state (engine_with Playing false 1)
           (String.append " "%string nbsp) env_undecodable).
  reflexivity.
Defined.

(** C7: an engine [Playing] whose sink reports no queued audio moves to
    [Loaded]; when the state is not [Playing] or the sink still holds
    audio, the engine is left as it is; without a sink the [Loaded]
    transition never fires (the state is kept or reset to [Idle]). *)
Theorem check_finished_playing_to_loaded (m : AudioManager) :
  (forall s, sink m = Some s -> state m = Playing -> sink_empty s = true ->
     state (snd (check_and_update_finished_state m)) = Loaded) /\
  (forall s, sink m = Some s -> (state m <> Playing \/ sink_empty s = false) ->
     snd (check_and_update_finished_state m) = m) /\
  (sink m = None ->
     state (snd (check_and_update_finished_state m)) = state m \/
     state (snd (check_and_update_finished_state m)) = Idle).
Proof.
  unfold check_and_update_finished_state.
  split; [intros s -> -> ->; reflexivity|].
  split.
  - intros s -> [Hst|He].
    + destruct (state m) eqn:E; simpl; rewrite ?andb_false_r;
        first [congruence | destruct m; simpl in *; subst; reflexivity].
    + rewrite He. simpl. destruct m; reflexivity.
  - intros ->. destruct (state m) eqn:E; simpl; auto.
Qed.

Lemma check_finished_playing_to_loaded_witness :
  sink_empty {| sink_paused := false; sink_sources := 0; sink_volume := 1%R |} = true /\
  state (snd (check_and_update_finished_state (engine_with Playing false 0))) = Loaded.
Proof.
  split; [reflexivity|].
  apply (proj1 (check_finished_playing_to_loaded (engine_with Playing false 0)) _ eq_refl);
    reflexivity.
Defined.

(** C8: teardown is idempotent: a second call leaves the engine as the
    first left it and performs no further effect; after any call the state
    is [Idle] and no sink, thread handle or stop sender is held. *)
Theorem stop_playback_idempotent (m : AudioManager) :
  snd (stop_playback_and_processing (snd (stop_playback_and_processing m)))
    = snd (stop_playback_and_processing m) /\
  fst (stop_playback_and_processing (snd (stop_playback_and_processing m))) = [] /\
  state (snd (stop_playback_and_processing m)) = Idle /\
  sink (snd (stop_playback_and_processing m)) = None /\
  processing_thread_handle (snd (stop_playback_and_processing m)) = None /\
  stop_signal_sender (snd (stop_playback_and_processing m)) = None.
Proof. repeat split. Qed.

(** C10: after [check_and_update_finished_state] on an engine holding no
    sink, the state is neither [Playing] nor [Paused]; an engine seen
    [Playing] or [Paused] without a sink is reset to [Idle]. *)
Theorem check_without_sink_not_active (m : AudioManager) (Hs : sink m = None) :
  state (snd (check_and_update_finished_state m)) <> Playing /\
  state (snd (check_and_update_finished_state m)) <> Paused /\
  ((state m = Playing \/ state m = Paused) ->
     state (snd (check_and_update_finished_state m)) = Idle).
Proof.
  unfold check_and_update_finished_state. rewrite Hs.
  destruct (state m) eqn:E; simpl; rewrite ?E;
    repeat split; try discriminate; intros [H|H]; discriminate H.
Qed.

Definition engine_without_sink (st : PlaybackState) : AudioManager :=
  {| sink := None; processing_thread_handle := None; stop_signal_sender := None;
     current_file_path := Some "a.mp3"%string; state := st; current_volume := 1%R |}.

Lemma check_without_sink_not_active_witness :
  sink (engine_without_sink Paused) = None /\
  state (snd (check_and_update_finished_state (engine_without_sink Paused))) = Idle.
Proof.
  split; [reflexivity|].
  apply (check_without_sink_not_active (engine_without_sink Paused) eq_refl).
  right; reflexivity.
Defined.

(* ------------------------------------------------------------------ *)
(** ** Further properties of the engine *)

(** A world in which every step of a load succeeds. *)
Definition env_all_ok : Env :=
  {| file_opens := fun _ => true;
     decodes := fun _ => Some {| Broadcaster.src_samples := [0%R]; Broadcaster.src_channels := 2;
                                 Broadcaster.src_sample_rate := 48;
                                 Broadcaster.src_total_duration := None |};
     spawn_ok := true; sink_ok := true; session_id := 7 |}.

(** A successful [load_and_play_file] happens exactly when the path is not
    blank and the file opens, decodes, gets a thread and a sink; it first
    tears the old session down (joining its thread, if any) and leaves the
    engine [Playing] the new path, with a fresh unpaused sink holding one
    source at the current volume, and the new session's thread handle and
    stop sender. *)
Theorem load_success_starts_session (m : AudioManager) (path : string) (env : Env) :
  ((exists ev m', load_and_play_file m path env = (ev, Ok, m')) <->
   (is_empty (trim path) = false /\ file_opens env path = true /\
    decodes env path <> None /\ spawn_ok env = true /\ sink_ok env = true)) /\
  (forall ev m', load_and_play_file m path env = (ev, Ok, m') ->
     ev = fst (stop_playback_and_processing m) /\
     (forall h, processing_thread_handle m = Some h -> In (ThreadJoined h) ev) /\
     state m' = Playing /\ current_file_path m' = Some path /\
     sink m' = Some {| sink_paused := false; sink_sources := 1;
                       sink_volume := current_volume m |} /\
     processing_thread_handle m' = Some (session_id env) /\
     stop_signal_sender m' = Some (session_id env) /\
     current_volume m' = current_volume m).
Proof.
  split; [split|].
  - intros (ev & m' & H). unfold load_and_play_file in H.
    destruct (is_empty (trim path)) eqn:Ep; [discriminate H|].
    destruct (file_opens env path) eqn:Eo; [|discriminate H].
    destruct (decodes env path) eqn:Ed; [|discriminate H].
    destruct (spawn_ok env) eqn:Es; [|discriminate H].
    destruct (sink_ok env) eqn:Ek; [|discriminate H].
    repeat split; discriminate.
  - intros (Ep & Eo & Ed & Es & Ek). unfold load_and_play_file.
    rewrite Ep, Eo. destruct (decodes env path); [|congruence].
    rewrite Es, Ek. simpl. eexists; eexists; reflexivity.
  - intros ev m' H. unfold load_and_play_file in H.
    destruct (is_empty (trim path)) eqn:Ep; [discriminate H|].
    destruct (file_opens env path) eqn:Eo; [|discriminate H].
    destruct (decodes env path) eqn:Ed; [|discriminate H].
    destruct (spawn_ok env) eqn:Es; [|discriminate H].
    destruct (sink_ok env) eqn:Ek; [|discriminate H].
    simpl in H. injection H as <- <-.
    repeat split; try reflexivity.
    intros h Hh. unfold stop_playback_and_processing. rewrite Hh.
    apply in_or_app; right. apply in_or_app; right. left; reflexivity.
Qed.

Lemma load_success_starts_session_witness :
  (exists ev m', load_and_play_file (engine_with Playing false 1) "b.mp3"%string env_all_ok
                 = (ev, Ok, m')) /\
  ~ (exists ev m', load_and_play_file (engine_with Playing false 1) nbsp env_all_ok
                   = (ev, Ok, m')) /\
  In (ThreadJoined 0)
    (fst (fst (load_and_play_file (engine_with Playing false 1) "b.mp3"%string env_all_ok))).
Proof.
  pose proof (load_success_starts_session (engine_with Playing false 1) "b.mp3"%string
                env_all_ok) as [[_ K1] K2].
  pose proof (load_success_starts_session (engine_with Playing false 1) nbsp
                env_all_ok) as [[K3 _] _].
  assert (Ex : exists ev m', load_and_play_file (engine_with Playing false 1) "b.mp3"%string
                               env_all_ok = (ev, Ok, m')).
  { apply K1. split; [reflexivity|]. split; [reflexivity|].
    split; [discriminate|]. split; reflexivity. }
  split; [exact Ex|]. split.
  - intros Hn. destruct (K3 Hn) as (Ep & _). discriminate Ep.
  - destruct Ex as (ev & m' & E). rewrite E. simpl.
    exact (proj1 (proj2 (K2 ev m' E)) 0 eq_refl).
Defined.

(** When the file decodes but the processing thread cannot be spawned, the
    call fails after teardown with the new path recorded and a stop sender
    held without a thread handle; when the thread starts but no sink can be
    created, the engine holds the new thread handle and stop sender but no
    sink.  In both cases the state is [Idle]. *)
Theorem load_late_failures (m : AudioManager) (path : string) (env : Env) src
  (Hp : is_empty (trim path) = false) (Ho : file_opens env path = true)
  (Hd : decodes env path = Some src) :
  (spawn_ok env = false ->
     load_and_play_file m path env =
       (fst (stop_playback_and_processing m), Err ThreadSpawnError,
        {| sink := None; processing_thread_handle := None;
           stop_signal_sender := Some (session_id env);
           current_file_path := Some path; state := Idle;
           current_volume := current_volume m |})) /\
  (spawn_ok env = true -> sink_ok env = false ->
     load_and_play_file m path env =
       (fst (stop_playback_and_processing m), Err DeviceError,
        {| sink := None; processing_thread_handle := Some (session_id env);
           stop_signal_sender := Some (session_id env);
           current_file_path := Some path; state := Idle;
           current_volume := current_volume m |})).
Proof.
  unfold load_and_play_file. rewrite Hp, Ho, Hd. simpl.
  split; [intros ->; reflexivity|]. intros -> ->. reflexivity.
Qed.

(** Worlds in which the file decodes but no thread can be spawned, or no
    output sink can be created. *)
Definition env_no_thread : Env :=
  {| file_opens := file_opens env_all_ok; decodes := decodes env_all_ok;
     spawn_ok := false; sink_ok := true; session_id := 7 |}.

Definition env_no_device : Env :=
  {| file_opens := file_opens env_all_ok; decodes := decodes env_all_ok;
     spawn_ok := true; sink_ok := false; session_id := 7 |}.

Lemma load_late_failures_witness :
  load_and_play_file (engine_with Playing false 1) "b.mp3"%string env_no_thread =
    ([SinkStopped; StopSignalSent 0; ThreadJoined 0], Err ThreadSpawnError,
     {| sink := None; processing_thread_handle := None; stop_signal_sender := Some 7;
        current_file_path := Some "b.mp3"%string; state := Idle; current_volume := 1%R |}) /\
  load_and_play_file (engine_with Playing false 1) "b.mp3"%string env_no_device =
    ([SinkStopped; StopSignalSent 0; ThreadJoined 0], Err DeviceError,
     {| sink := None; processing_thread_handle := Some 7; stop_signal_sender := Some 7;
        current_file_path := Some "b.mp3"%string; state := Idle; current_volume := 1%R |}).
Proof.
  split.
  - exact (proj1 (load_late_failures (engine_with Playing false 1) "b.mp3"%string
                    env_no_thread _ eq_refl eq_refl eq_refl) eq_refl).
  - exact (proj2 (load_late_failures (engine_with Playing false 1) "b.mp3"%string
                    env_no_device _ eq_refl eq_refl eq_refl) eq_refl eq_refl).
Defined.

(** [pause_playback] acts only on a [Playing] engine whose sink is not
    paused: it pauses the sink and sets [Paused]; any other engine is left
    as it is.  Pausing and then resuming gives back the engine as it was. *)
Theorem pause_then_resume (m : AudioManager) s
  (Hst : state m = Playing) (Hs : sink m = Some s) (Hp : sink_paused s = false) :
  state (pause_playback m) = Paused /\
  sink (pause_playback m) = Some (sink_pause s) /\
  resume_playback (pause_playback m) = m /\
  (forall m0, state m0 <> Playing \/ sink m0 = None \/
              (exists s0, sink m0 = Some s0 /\ sink_paused s0 = true) ->
     pause_playback m0 = m0).
Proof.
  unfold pause_playback. rewrite Hst, Hs, Hp. simpl.
  split; [reflexivity|]. split; [reflexivity|]. split.
  - unfold resume_playback. simpl.
    destruct m as [sk h snd' pth st vol]; simpl in *. subst sk st.
    destruct s as [sp ss sv]; simpl in *. subst sp. reflexivity.
  - intros m0 [H0|[H0|(s0 & H0 & H1)]].
    + destruct (state m0) eqn:E; try reflexivity. congruence.
    + rewrite H0. destruct (state m0); reflexivity.
    + rewrite H0, H1. destruct (state m0); reflexivity.
Qed.

Lemma pause_then_resume_witness :
  state (engine_with Playing false 1) = Playing /\
  resume_playback (pause_playback (engine_with Playing false 1)) = engine_with Playing false 1 /\
  pause_playback (engine_with Playing true 1) = engine_with Playing true 1.
Proof.
  pose proof (pause_then_resume (engine_with Playing false 1) _ eq_refl eq_refl eq_refl)
    as (_ & _ & K1 & K2).
  split; [reflexivity|]. split; [exact K1|].
  apply K2. right; right. eexists; split; reflexivity.
Defined.

Lemma clamp_bounds (v : R) : (0 <= clamp v 0 1 <= 1)%R.
Proof.
  unfold clamp. destruct (Rlt_dec v 0); destruct (Rlt_dec 1 _); lra.
Qed.

Lemma clamp_in_range (v : R) : (0 <= v <= 1)%R -> clamp v 0 1 = v.
Proof.
  intros H. unfold clamp. destruct (Rlt_dec v 0); [lra|]. destruct (Rlt_dec 1 v); [lra|].
  reflexivity.
Qed.

(** [set_output_volume v] stores [v] clamped to [0, 1] ([0] below, [1]
    above, [v] itself inside), gives the same volume to the sink when there
    is one, changes nothing else, and a second call overrides the first. *)
Theorem set_output_volume_clamps (m : AudioManager) (v w : R) :
  (0 <= current_volume (set_output_volume m v) <= 1)%R /\
  ((0 <= v <= 1)%R -> current_volume (set_output_volume m v) = v) /\
  ((v < 0)%R -> current_volume (set_output_volume m v) = 0%R) /\
  ((1 < v)%R -> current_volume (set_output_volume m v) = 1%R) /\
  (forall s, sink m = Some s ->
     sink (set_output_volume m v) =
       Some {| sink_paused := sink_paused s; sink_sources := sink_sources s;
               sink_volume := current_volume (set_output_volume m v) |}) /\
  (sink m = None -> sink (set_output_volume m v) = None) /\
  processing_thread_handle (set_output_volume m v) = processing_thread_handle m /\
  stop_signal_sender (set_output_volume m v) = stop_signal_sender m /\
  state (set_output_volume m v) = state m /\
  current_file_path (set_output_volume m v) = current_file_path m /\
  set_output_volume (set_output_volume m v) w = set_output_volume m w.
Proof.
  split; [apply clamp_bounds|].
  split; [apply clamp_in_range|].
  split; [intros H; simpl; unfold clamp; destruct (Rlt_dec v 0); [|lra];
          destruct (Rlt_dec 1 0); [lra|reflexivity]|].
  split; [intros H; simpl; unfold clamp; destruct (Rlt_dec v 0); [lra|];
          destruct (Rlt_dec 1 v); [reflexivity|lra]|].
  split; [intros s Hs; simpl; rewrite Hs; reflexivity|].
  split; [intros Hs; simpl; rewrite Hs; reflexivity|].
  split; [reflexivity|]. split; [reflexivity|].
  split; [reflexivity|]. split; [reflexivity|].
  unfold set_output_volume. simpl. destruct (sink m); reflexivity.
Qed.

Lemma engine_inv_idle (m : AudioManager) :
  sink m = None -> state m = Idle -> (0 <= current_volume m <= 1)%R -> engine_inv m.
Proof.
  intros Hs Hst Hv. unfold engine_inv. rewrite Hs, Hst.
  repeat split; try lra; intros; discriminate.
Qed.

Lemma engine_inv_step (m m' : AudioManager) :
  engine_inv m -> engine_step m m' -> engine_inv m'.
Proof.
  intros Hinv Hstep. pose proof Hinv as (Hv & Hsv & HPa & HPl & HL).
  destruct Hstep as [m path env ev r m' H| m | m | m v | m | m | m s Hs Hk].
  - unfold load_and_play_file in H.
    destruct (is_empty (trim path)); [injection H as _ _ <-; exact Hinv|].
    destruct (file_opens env path); simpl in H;
      [|injection H as _ _ <-; apply engine_inv_idle; simpl; auto].
    destruct (decodes env path); [|injection H as _ _ <-; apply engine_inv_idle; simpl; auto].
    destruct (spawn_ok env); simpl in H;
      [|injection H as _ _ <-; apply engine_inv_idle; simpl; auto].
    destruct (sink_ok env); simpl in H;
      [|injection H as _ _ <-; apply engine_inv_idle; simpl; auto].
    injection H as _ _ <-. unfold engine_inv; simpl.
    split; [exact Hv|]. split; [intros s0 Hs0; injection Hs0 as <-; reflexivity|].
    split; [discriminate|]. split; [|discriminate].
    intros _. eexists; split; reflexivity.
  - unfold pause_playback.
    destruct (state m) eqn:Est; try exact Hinv.
    destruct (sink m) as [s|] eqn:Es; [|exact Hinv].
    destruct (sink_paused s) eqn:Ep; simpl; [exact Hinv|].
    unfold engine_inv; simpl.
    split; [exact Hv|]. split; [intros s' Hs'; injection Hs' as <-; simpl; apply Hsv; reflexivity|].
    split; [intros _; eexists; split; reflexivity|].
    split; discriminate.
  - unfold resume_playback.
    destruct (state m) eqn:Est; try exact Hinv.
    destruct (sink m) as [s|] eqn:Es; [|exact Hinv].
    destruct (sink_paused s) eqn:Ep; simpl; [|exact Hinv].
    unfold engine_inv; simpl.
    split; [exact Hv|]. split; [intros s' Hs'; injection Hs' as <-; simpl; apply Hsv; reflexivity|].
    split; [discriminate|]. split; [intros _; eexists; split; reflexivity|].
    discriminate.
  - unfold engine_inv; simpl.
    split; [apply clamp_bounds|].
    split; [intros s Hs; destruct (sink m); [injection Hs as <-; reflexivity|discriminate]|].
    split; [intros H; destruct (HPa H) as (s & -> & Hp); eexists; split; [reflexivity|exact Hp]|].
    split; [intros H; destruct (HPl H) as (s & -> & Hp); eexists; split; [reflexivity|exact Hp]|].
    intros H; destruct (HL H) as (s & -> & Hp); eexists; split; [reflexivity|exact Hp].
  - unfold check_and_update_finished_state.
    destruct (sink m) as [s|] eqn:Es.
    + destruct (sink_empty s && PlaybackState_eqb (state m) Playing) eqn:Ef; simpl;
        [|exact Hinv].
      apply andb_prop in Ef as [He _].
      unfold engine_inv; simpl. rewrite Es.
      split; [exact Hv|]. split; [exact Hsv|].
      split; [discriminate|]. split; [discriminate|].
      intros _. eexists; split; [reflexivity|exact He].
    + destruct (state m) eqn:Est; simpl; try exact Hinv;
        apply engine_inv_idle; simpl; auto.
  - apply engine_inv_idle; simpl; auto.
  - unfold engine_inv; simpl.
    split; [exact Hv|].
    split; [intros s' Hs'; injection Hs' as <-; simpl; apply Hsv; exact Hs|].
    split; [intros H; destruct (HPa H) as (s0 & Hs0 & Hp); rewrite Hs in Hs0;
            injection Hs0 as <-; eexists; split; [reflexivity|exact Hp]|].
    split; [intros H; destruct (HPl H) as (s0 & Hs0 & Hp); rewrite Hs in Hs0;
            injection Hs0 as <-; eexists; split; [reflexivity|exact Hp]|].
    intros H; destruct (HL H) as (s0 & Hs0 & He); rewrite Hs in Hs0.
    injection Hs0 as <-. unfold sink_empty in He. apply Nat.eqb_eq in He. contradiction.
Qed.

Lemma reachable_engine_inv_holds (m : AudioManager) (H : reachable m) : engine_inv m.
Proof.
  induction H as [v m Hn | m m' _ IH Hs].
  - unfold new in Hn. injection Hn as <-. apply engine_inv_idle; simpl; auto.
    apply clamp_bounds.
  - exact (engine_inv_step m m' IH Hs).
Qed.

(** Every engine the program can reach keeps its volume in [0, 1], gives
    its sink that same volume, and has a paused sink when [Paused], an
    unpaused sink when [Playing] and an empty sink when [Loaded]. *)
Theorem reachable_engine_inv (m : AudioManager) (H : reachable m) : engine_inv m.
Proof. exact (reachable_engine_inv_holds m H). Qed.

(** The engine [AudioVisualizerApp::new] builds: [DEFAULT_VOLUME = 0.25]. *)
Definition default_engine : AudioManager :=
  {| sink := None; processing_thread_handle := None; stop_signal_sender := None;
     current_file_path := None; state := Idle; current_volume := clamp (/ 4) 0 1 |}.

(** A session of the program: "a.mp3" loaded and playing, then paused; or
    played until its one source finished, after which the per-frame check
    moves it to [Loaded]. *)
Definition playing_engine : AudioManager :=
  snd (load_and_play_file default_engine "a.mp3"%string env_all_ok).

Definition paused_engine : AudioManager := pause_playback playing_engine.

Definition playing_sink : Sink :=
  {| sink_paused := false; sink_sources := 1; sink_volume := clamp (/ 4) 0 1 |}.

Definition drained_engine : AudioManager :=
  {| sink := Some (sink_source_finished playing_sink);
     processing_thread_handle := processing_thread_handle playing_engine;
     stop_signal_sender := stop_signal_sender playing_engine;
     current_file_path := current_file_path playing_engine; state := state playing_engine;
     current_volume := current_volume playing_engine |}.

Definition loaded_engine : AudioManager := snd (check_and_update_finished_state drained_engine).

Lemma reach_default : reachable default_engine.
Proof. apply (reach_new (Some (/ 4)%R)). reflexivity. Qed.

Lemma reach_playing : reachable playing_engine.
Proof.
  eapply reach_step; [exact reach_default|].
  eapply (step_load _ "a.mp3"%string env_all_ok). reflexivity.
Qed.

Lemma reach_paused : reachable paused_engine.
Proof. eapply reach_step; [exact reach_playing|]. apply step_pause. Qed.

Lemma reach_loaded : reachable loaded_engine.
Proof.
  eapply reach_step; [|apply step_check].
  eapply reach_step; [exact reach_playing|].
  apply (step_source_finished playing_engine playing_sink); [reflexivity|discriminate].
Qed.

Lemma reachable_engine_inv_witness :
  (reachable playing_engine /\ state playing_engine = Playing /\ engine_inv playing_engine) /\
  (reachable paused_engine /\ state paused_engine = Paused /\ engine_inv paused_engine) /\
  (reachable loaded_engine /\ state loaded_engine = Loaded /\ engine_inv loaded_engine).
Proof.
  split; [|split].
  - split; [exact reach_playing|]. split; [reflexivity|].
    exact (reachable_engine_inv playing_engine reach_playing).
  - split; [exact reach_paused|]. split; [reflexivity|].
    exact (reachable_engine_inv paused_engine reach_paused).
  - split; [exact reach_loaded|]. split; [reflexivity|].
    exact (reachable_engine_inv loaded_engine reach_loaded).
Defined.

(** Consequences for reachable engines: [resume_playback] on a [Paused]
    engine always resumes it; an engine without a sink is [Idle], so the
    reset branch of [check_and_update_finished_state] never changes one;
    and a [Loaded] engine's sink has no queued audio. *)
Theorem reachable_engine_consequences (m : AudioManager) (H : reachable m) :
  (state m = Paused -> state (resume_playback m) = Playing) /\
  (sink m = None -> state m = Idle /\ snd (check_and_update_finished_state m) = m) /\
  (forall s, state m = Loaded -> sink m = Some s -> sink_empty s = true).
Proof.
  destruct (reachable_engine_inv_holds m H) as (_ & _ & HPa & HPl & HL).
  split; [|split].
  - intros Hp. destruct (HPa Hp) as (s & Hs & Hsp).
    unfold resume_playback. rewrite Hp, Hs, Hsp. reflexivity.
  - intros Hs. assert (Hst : state m = Idle).
    { destruct (state m) eqn:E; try reflexivity.
      - destruct (HL eq_refl) as (s & Hs' & _); congruence.
      - destruct (HPl eq_refl) as (s & Hs' & _); congruence.
      - destruct (HPa eq_refl) as (s & Hs' & _); congruence. }
    split; [exact Hst|].
    unfold check_and_update_finished_state. rewrite Hs, Hst. reflexivity.
  - intros s Hl Hs. destruct (HL Hl) as (s' & Hs' & He). congruence.
Qed.

Lemma reachable_engine_consequences_witness :
  (reachable paused_engine /\ state paused_engine = Paused /\
   state (resume_playback paused_engine) = Playing) /\
  (reachable loaded_engine /\ state loaded_engine = Loaded /\
   forall s, sink loaded_engine = Some s -> sink_empty s = true).
Proof.
  split.
  - split; [exact reach_paused|]. split; [reflexivity|].
    exact (proj1 (reachable_engine_consequences paused_engine reach_paused) eq_refl).
  - split; [exact reach_loaded|]. split; [reflexivity|].
    intros s Hs.
    exact (proj2 (proj2 (reachable_engine_consequences loaded_engine reach_loaded)) s eq_refl Hs).
Defined.

(** C3: in every engine the program can reach, [resume_playback] on a
    [Paused] engine finds a paused sink, plays it and sets [Playing]; on
    any other state it is a no-op.  A [Loaded] engine's sink never holds
    remaining audio, so the resume from [Loaded] with buffered audio never
    arises (and holds vacuously). *)
Theorem resume_playback_on_reachable (m : AudioManager) (H : reachable m) :
  (state m = Paused ->
     exists s, sink m = Some s /\ sink_paused s = true /\
       resume_playback m =
         {| sink := Some (sink_play s);
            processing_thread_handle := processing_thread_handle m;
            stop_signal_sender := stop_signal_sender m;
            current_file_path := current_file_path m; state := Playing;
            current_volume := current_volume m |}) /\
  (state m <> Paused -> resume_playback m = m) /\
  (forall s, state m = Loaded -> sink m = Some s -> sink_empty s = true) /\
  (forall s, state m = Loaded -> sink m = Some s -> sink_empty s = false ->
     state (resume_playback m) = Playing).
Proof.
  destruct (reachable_engine_inv_holds m H) as (_ & _ & HPa & _ & HL).
  destruct (resume_playback_cases m) as (Hp & Hn & _ & _).
  assert (Hemp : forall s, state m = Loaded -> sink m = Some s -> sink_empty s = true).
  { intros s Hl Hs. destruct (HL Hl) as (s' & Hs' & He). congruence. }
  split; [|split; [exact Hn|split; [exact Hemp|]]].
  - intros Hst. destruct (HPa Hst) as (s & Hs & Hsp).
    exists s. split; [exact Hs|]. split; [exact Hsp|]. exact (Hp s Hst Hs Hsp).
  - intros s Hl Hs He. rewrite (Hemp s Hl Hs) in He. discriminate.
Qed.

Lemma resume_playback_on_reachable_witness :
  reachable paused_engine /\ state paused_engine = Paused /\
  exists s, sink paused_engine = Some s /\ sink_paused s = true /\
    resume_playback paused_engine =
      {| sink := Some (sink_play s);
         processing_thread_handle := processing_thread_handle paused_engine;
         stop_signal_sender := stop_signal_sender paused_engine;
         current_file_path := current_file_path paused_engine; state := Playing;
         current_volume := current_volume paused_engine |}.
Proof.
  split; [exact reach_paused|]. split; [reflexivity|].
  exact (proj1 (resume_playback_on_reachable paused_engine reach_paused) eq_refl).
Defined.

(* ------------------------------------------------------------------ *)
(** ** Further properties of the analyzer *)

Module ProcessorFacts2.
Import Processor ProcessorFacts.

Definition hann_coef (n i : nat) : R :=
  (0.5 * (1 - cos (2 * PI * INR i / Rmax (INR n - 1) 1)))%R.

Lemma hann_nth (n i : nat) :
  nth_error (hann_window n) i = if i <? n then Some (hann_coef n i) else None.
Proof.
  destruct n as [|k].
  - simpl. rewrite nth_error_nil. destruct i; reflexivity.
  - unfold hann_window. rewrite nth_error_map, nth_error_seq.
    destruct (i <? S k); reflexivity.
Qed.

Lemma hann_coef_bounds (n i : nat) : (0 <= hann_coef n i <= 1)%R.
Proof.
  unfold hann_coef. pose proof (COS_bound (2 * PI * INR i / Rmax (INR n - 1) 1)). lra.
Qed.

Lemma hann_norm_factor (n : nat) : 2 <= n -> Rmax (INR n - 1) 1 = (INR n - 1)%R.
Proof.
  intros H. apply Rmax_left. apply le_INR in H. simpl in H. lra.
Qed.

Lemma hann_coef_mirror (n i : nat) : i < n -> hann_coef n (n - 1 - i) = hann_coef n i.
Proof.
  intros Hi. destruct (Nat.eq_dec n 1) as [->|Hn].
  - replace i with 0 by lia. reflexivity.
  - assert (H2 : 2 <= n) by lia.
    unfold hann_coef. rewrite hann_norm_factor by exact H2.
    rewrite minus_INR by lia. rewrite minus_INR by lia.
    assert (Hd : (INR n - 1 <> 0)%R) by (apply le_INR in H2; simpl in H2; lra).
    replace (2 * PI * (INR n - INR 1 - INR i) / (INR n - 1))%R
      with (2 * PI - 2 * PI * INR i / (INR n - 1))%R by (simpl; field; exact Hd).
    rewrite cos_minus, cos_2PI, sin_2PI. f_equal. f_equal. ring.
Qed.

End ProcessorFacts2.

Import ProcessorFacts2.

(** The Hann window of size [n] has [n] coefficients, all within [0, 1];
    the first is 0 (for [n >= 1]), the last is 0 (for [n >= 2]), and the
    window is symmetric: coefficient [i] equals coefficient [n - 1 - i]. *)
Theorem hann_window_shape (n : nat) :
  length (hann_window n) = n /\
  (forall i x, nth_error (hann_window n) i = Some x -> (0 <= x <= 1)%R) /\
  (1 <= n -> nth_error (hann_window n) 0 = Some 0%R) /\
  (2 <= n -> nth_error (hann_window n) (n - 1) = Some 0%R) /\
  (forall i, i < n -> nth_error (hann_window n) i = nth_error (hann_window n) (n - 1 - i)).
Proof.
  split; [destruct n; [reflexivity|]; unfold hann_window; rewrite length_map, length_seq; reflexivity|].
  split; [intros i x Hx; rewrite hann_nth in Hx; destruct (i <? n); [|discriminate];
          injection Hx as <-; apply hann_coef_bounds|].
  split.
  - intros Hn. rewrite hann_nth. destruct (Nat.ltb_spec 0 n); [|lia]. f_equal.
    unfold hann_coef. simpl INR.
    replace (2 * PI * 0 / Rmax (INR n - 1) 1)%R with 0%R by (unfold Rdiv; ring).
    rewrite cos_0. ring.
  - split.
    + intros Hn. rewrite hann_nth. destruct (Nat.ltb_spec (n - 1) n); [|lia]. f_equal.
      unfold hann_coef. rewrite hann_norm_factor by exact Hn.
      rewrite minus_INR by lia. simpl INR.
      assert (Hd : (INR n - 1 <> 0)%R) by (apply le_INR in Hn; simpl in Hn; lra).
      replace (2 * PI * (INR n - 1) / (INR n - 1))%R with (2 * PI)%R by (field; exact Hd).
      rewrite cos_2PI. ring.
    + intros i Hi. rewrite !hann_nth.
      destruct (Nat.ltb_spec i n); [|lia]. destruct (Nat.ltb_spec (n - 1 - i) n); [|lia].
      rewrite hann_coef_mirror by exact Hi. reflexivity.
Qed.

(** For an analyzer of FFT size at least 1 (with size 0 the code would
    divide by zero), every record that [process_samples] returns has a
    nonnegative peak, a nonnegative RMS and nonnegative frequency
    magnitudes, and carries the analyzer's FFT size. *)
Theorem process_samples_metric_bounds
  (fft : list Complex -> list Complex -> list Complex * list Complex)
  (p : AudioProcessor) (new_samples : list R) (d : AudioAnalysisData) (p' : AudioProcessor)
  (HN : 1 <= fft_size p)
  (E : process_samples fft p new_samples = (Some d, p')) :
  (0 <= peak_amplitude d)%R /\ (0 <= rms_amplitude d)%R /\
  Forall (fun x => 0 <= x)%R (frequency_magnitudes d) /\
  data_fft_size d = fft_size p.
Proof.
  unfold process_samples in E.
  destruct (Nat.leb_spec (fft_size p) (length (sample_buffer p ++ new_samples)));
    [|discriminate E].
  set (w := firstn (fft_size p) (sample_buffer p ++ new_samples)) in E.
  rewrite fold_metrics in E by lra.
  destruct (fft _ _) as [i' o']. injection E as <- _. simpl.
  rewrite Rmax_right by apply spec_max_abs_nonneg. rewrite Rplus_0_l.
  split; [apply spec_max_abs_nonneg|]. split; [apply sqrt_pos|].
  split; [|reflexivity].
  apply Forall_forall. intros x Hx. apply in_map_iff in Hx as (c & <- & _).
  unfold Rdiv. apply Rmult_le_pos; [apply sqrt_pos|].
  destruct (fft_size p) as [|k]; [lia|].
  left. apply Rinv_0_lt_compat, lt_0_INR. lia.
Qed.

Lemma process_samples_metric_bounds_witness :
  1 <= fft_size (Processor.new 2) /\
  exists d p', process_samples fft_identity (Processor.new 2) [1; -1]%R = (Some d, p') /\
    (0 <= peak_amplitude d)%R /\ (0 <= rms_amplitude d)%R /\
    Forall (fun x => 0 <= x)%R (frequency_magnitudes d) /\ data_fft_size d = 2.
Proof.
  split; [simpl; lia|].
  destruct (process_samples fft_identity (Processor.new 2) [1; -1]%R) as [[d|] p'] eqn:E;
    [|discriminate E].
  exists d, p'. split; [reflexivity|].
  exact (process_samples_metric_bounds fft_identity (Processor.new 2) [1; -1]%R d p'
           ltac:(simpl; lia) E).
Defined.

Lemma process_samples_buffer fft (p : AudioProcessor) (c : list R) r p1 :
  process_samples fft p c = (r, p1) ->
  fft_size p1 = fft_size p /\
  ((r = None /\ sample_buffer p1 = sample_buffer p ++ c) \/
   (exists d, r = Some d /\ fft_size p <= length (sample_buffer p ++ c) /\
              sample_buffer p1 = skipn (fft_size p) (sample_buffer p ++ c))).
Proof.
  unfold process_samples.
  destruct (Nat.leb_spec (fft_size p) (length (sample_buffer p ++ c))) as [Hle|Hlt].
  - destruct (fold_left metrics_step _ _) as [pk ss]. destruct (fft _ _) as [i' o'].
    intros E. injection E as <- <-. simpl. split; [reflexivity|].
    right. eexists; split; [reflexivity|]. split; [exact Hle|reflexivity].
  - intros E. injection E as <- <-. simpl. split; [reflexivity|]. left; split; reflexivity.
Qed.

Lemma process_all_windows
  (fft : list Complex -> list Complex -> list Complex * list Complex)
  (p : AudioProcessor) (chunks : list (list R)) :
  let '(rs, p') := process_all fft p chunks in
  length rs = length chunks /\
  fft_size p' = fft_size p /\
  fft_size p * count_records rs <= length (sample_buffer p ++ concat chunks) /\
  sample_buffer p' = skipn (fft_size p * count_records rs) (sample_buffer p ++ concat chunks).
Proof.
  revert p; induction chunks as [|c rest IH]; intros p; simpl.
  - rewrite Nat.mul_0_r, app_nil_r. repeat split; lia.
  - destruct (process_samples fft p c) as [r p1] eqn:E.
    destruct (process_samples_buffer fft p c r p1 E) as [Hn [[-> Hb]|(d & -> & Hle & Hb)]].
    + specialize (IH p1). destruct (process_all fft p1 rest) as [rs p2].
      destruct IH as (Hl & Hf & Hc & Hs). rewrite Hn, Hb, <- app_assoc in *.
      simpl. repeat split; try lia; assumption.
    + specialize (IH p1). destruct (process_all fft p1 rest) as [rs p2].
      destruct IH as (Hl & Hf & Hc & Hs). rewrite Hn, Hb in *.
      assert (Hsk : skipn (fft_size p) (sample_buffer p ++ c) ++ concat rest
                    = skipn (fft_size p) ((sample_buffer p ++ c) ++ concat rest)).
      { rewrite (skipn_app (fft_size p) (sample_buffer p ++ c)).
        replace (fft_size p - length (sample_buffer p ++ c)) with 0 by lia.
        reflexivity. }
      rewrite Hsk in Hc, Hs. rewrite length_skipn in Hc.
      rewrite <- app_assoc in *. simpl count_records.
      split; [simpl; lia|]. split; [exact Hf|]. split.
      * rewrite Nat.mul_succ_r. rewrite !length_app in *. lia.
      * rewrite Hs, skipn_skipn, Nat.mul_succ_r. f_equal.
Qed.

(** Over any sequence of calls, the analyzer consumes its input in
    consecutive windows of [N] samples and loses none: after [k] records,
    the carry buffer is the input (the initial buffer followed by every
    chunk) without its first [k * N] samples; one result per call, and the
    FFT size never changes. *)
Theorem process_all_consumes_windows
  (fft : list Complex -> list Complex -> list Complex * list Complex)
  (p : AudioProcessor) (chunks : list (list R)) :
  let '(rs, p') := process_all fft p chunks in
  length rs = length chunks /\
  fft_size p' = fft_size p /\
  fft_size p * count_records rs <= length (sample_buffer p ++ concat chunks) /\
  sample_buffer p' = skipn (fft_size p * count_records rs) (sample_buffer p ++ concat chunks).
Proof. exact (process_all_windows fft p chunks). Qed.

(* ------------------------------------------------------------------ *)
(** ** Further properties of the tap and of the processing thread *)

Module BroadcasterFacts2.
Import Broadcaster.

Definition stream_of (b : SampleBroadcaster) : list R :=
  concat (sent b) ++ buffer b ++ src_samples (source b).

Lemma next_stream_all_ok (b : SampleBroadcaster) :
  stream_of (snd (next (fun _ => SendOk) b)) = stream_of b.
Proof.
  destruct b as [[ss ch sr td] buf cap k snt]. unfold next, stream_of. simpl.
  destruct ss as [|x rest]; simpl.
  - destruct buf as [|y ys]; simpl; [reflexivity|].
    rewrite concat_app. simpl. rewrite !app_nil_r. reflexivity.
  - destruct (length (buf ++ [x]) =? _); simpl.
    + rewrite concat_app. simpl. rewrite app_nil_r, <- !app_assoc. reflexivity.
    + rewrite <- !app_assoc. reflexivity.
Qed.

Lemma pull_stream_all_ok (fuel : nat) (b : SampleBroadcaster) :
  stream_of (snd (pull (fun _ => SendOk) fuel b)) = stream_of b.
Proof.
  revert b; induction fuel as [|f IH]; intros b; [reflexivity|].
  simpl. pose proof (next_stream_all_ok b) as Hn.
  destruct (next (fun _ => SendOk) b) as [[x|] b1]; simpl in *.
  - specialize (IH b1). destruct (pull _ f b1) as [xs b2]. simpl in *. congruence.
  - exact Hn.
Qed.

Lemma pull_drains (chan : nat -> TrySendResult) (fuel : nat) (b : SampleBroadcaster) :
  length (src_samples (source b)) < fuel ->
  src_samples (source (snd (pull chan fuel b))) = [] /\
  buffer (snd (pull chan fuel b)) = [].
Proof.
  revert b; induction fuel as [|f IH]; intros b Hf; [lia|].
  simpl. destruct (src_samples (source b)) as [|x rest] eqn:Hs.
  - destruct b as [[ss ch sr td] buf cap k snt]. simpl in Hs. subst ss.
    unfold next. simpl. destruct buf; simpl; split; reflexivity.
  - destruct (BroadcasterFacts.next_some chan b x rest Hs) as (b1 & -> & Hr & _).
    specialize (IH b1). rewrite Hr in IH. simpl in Hf.
    destruct (pull chan f b1) as [xs b2]. simpl in *. apply IH. lia.
Qed.

Definition chunk_ok (cap : nat) (ch : list R) : Prop := 0 < length ch <= cap.

Lemma next_chunk_shape (chan : nat -> TrySendResult) (b : SampleBroadcaster) :
  1 <= buffer_capacity b -> length (buffer b) < buffer_capacity b ->
  Forall (chunk_ok (buffer_capacity b)) (sent b) ->
  let b1 := snd (next chan b) in
  buffer_capacity b1 = buffer_capacity b /\ length (buffer b1) < buffer_capacity b /\
  Forall (chunk_ok (buffer_capacity b)) (sent b1).
Proof.
  destruct b as [[ss ch sr td] buf cap k snt]. simpl. intros Hc Hb Hs.
  unfold next. simpl. destruct ss as [|x rest].
  - destruct buf as [|y ys]; simpl; [repeat split; assumption|].
    split; [reflexivity|]. split; [lia|].
    destruct (chan k); try assumption;
      (apply Forall_app; split; [assumption|
       apply Forall_cons; [unfold chunk_ok; simpl in *; lia|apply Forall_nil]]).
  - destruct (Nat.eqb_spec (length buf) cap) as [|_]; [lia|].
    simpl. assert (Hl : length (buf ++ [x]) = length buf + 1)
      by (rewrite length_app; reflexivity).
    rewrite Hl. destruct (Nat.eqb_spec (length buf + 1) cap) as [Heq|Hne]; simpl.
    + split; [reflexivity|]. split; [lia|].
      destruct (chan k); try assumption.
      apply Forall_app; split; [assumption|]. constructor; [|constructor].
      unfold chunk_ok. rewrite length_app. simpl. lia.
    + split; [reflexivity|]. split; [rewrite length_app; simpl; lia|]. assumption.
Qed.

End BroadcasterFacts2.

Import BroadcasterFacts2.

Lemma tap_stream_whole (src : Broadcaster.Source) (cap : nat) :
  concat (Broadcaster.sent
    (snd (Broadcaster.pull (fun _ => Broadcaster.SendOk)
            (S (length (Broadcaster.src_samples src))) (Broadcaster.new src cap))))
  = Broadcaster.src_samples src.
Proof.
  set (b := Broadcaster.new src cap).
  pose proof (pull_stream_all_ok (S (length (Broadcaster.src_samples src))) b) as Hs.
  destruct (pull_drains (fun _ => Broadcaster.SendOk) (S (length (Broadcaster.src_samples src))) b)
    as [Hr Hb]; [simpl; lia|].
  unfold stream_of in Hs. rewrite Hr, Hb in Hs. simpl in Hs.
  rewrite !app_nil_r in Hs. exact Hs.
Qed.

(** When the chunk channel accepts every send, the chunks a fresh tap
    delivers to the processing thread, put end to end, are exactly the
    source's samples: the full chunks and the final partial one lose and
    repeat nothing. *)
Theorem tap_delivers_whole_stream (src : Broadcaster.Source) (cap : nat) :
  concat (Broadcaster.sent
    (snd (Broadcaster.pull (fun _ => Broadcaster.SendOk)
            (S (length (Broadcaster.src_samples src))) (Broadcaster.new src cap))))
  = Broadcaster.src_samples src.
Proof. exact (tap_stream_whole src cap). Qed.

Lemma pull_chunk_shape (chan : nat -> Broadcaster.TrySendResult) (fuel : nat)
  (b : Broadcaster.SampleBroadcaster)
  (Hc : 1 <= Broadcaster.buffer_capacity b)
  (Hb : length (Broadcaster.buffer b) < Broadcaster.buffer_capacity b)
  (Hs : Forall (chunk_ok (Broadcaster.buffer_capacity b)) (Broadcaster.sent b)) :
  let b' := snd (Broadcaster.pull chan fuel b) in
  Broadcaster.buffer_capacity b' = Broadcaster.buffer_capacity b /\
  length (Broadcaster.buffer b') < Broadcaster.buffer_capacity b /\
  Forall (chunk_ok (Broadcaster.buffer_capacity b)) (Broadcaster.sent b').
Proof.
  revert b Hc Hb Hs; induction fuel as [|f IH]; intros b Hc Hb Hs; simpl;
    [repeat split; assumption|].
  pose proof (next_chunk_shape chan b Hc Hb Hs) as (H1 & H2 & H3).
  destruct (Broadcaster.next chan b) as [[x|] b1]; simpl in *.
  - rewrite <- H1 in Hc, H2, H3.
    specialize (IH b1 Hc H2 H3). destruct (Broadcaster.pull chan f b1) as [xs b2].
    simpl in *. rewrite <- H1. exact IH.
  - repeat split; assumption.
Qed.

(** For a tap of capacity [cap >= 1] (the program uses 1024), whatever the
    channel does, every chunk it sends has between 1 and [cap] samples, its
    buffer stays shorter than [cap] and its capacity never changes: the
    processing thread never receives an empty or oversized chunk. *)
Theorem tap_chunk_sizes (chan : nat -> Broadcaster.TrySendResult) (fuel : nat)
  (b : Broadcaster.SampleBroadcaster)
  (Hc : 1 <= Broadcaster.buffer_capacity b)
  (Hb : length (Broadcaster.buffer b) < Broadcaster.buffer_capacity b)
  (Hs : Forall (chunk_ok (Broadcaster.buffer_capacity b)) (Broadcaster.sent b)) :
  let b' := snd (Broadcaster.pull chan fuel b) in
  Broadcaster.buffer_capacity b' = Broadcaster.buffer_capacity b /\
  length (Broadcaster.buffer b') < Broadcaster.buffer_capacity b /\
  Forall (chunk_ok (Broadcaster.buffer_capacity b)) (Broadcaster.sent b').
Proof. exact (pull_chunk_shape chan fuel b Hc Hb Hs). Qed.

Lemma tap_chunk_sizes_witness :
  1 <= 2 /\ length (@nil R) < 2 /\
  Forall (chunk_ok 2) (@nil (list R)) /\
  Broadcaster.sent (snd (Broadcaster.pull (fun _ => Broadcaster.SendOk) 4
     (Broadcaster.new {| Broadcaster.src_samples := [1; 2; 3]%R; Broadcaster.src_channels := 1;
                         Broadcaster.src_sample_rate := 48;
                         Broadcaster.src_total_duration := None |} 2)))
    = [[1; 2]; [3]]%R /\
  Forall (chunk_ok 2) [[1; 2]; [3]]%R.
Proof.
  split; [lia|]. split; [simpl; lia|]. split; [constructor|]. split; [reflexivity|].
  pose proof (tap_chunk_sizes (fun _ => Broadcaster.SendOk) 4
     (Broadcaster.new {| Broadcaster.src_samples := [1; 2; 3]%R; Broadcaster.src_channels := 1;
                         Broadcaster.src_sample_rate := 48;
                         Broadcaster.src_total_duration := None |} 2)
     ltac:(simpl; lia) ltac:(simpl; lia) (Forall_nil _)) as (_ & _ & K).
  exact K.
Defined.

Module WorkerFacts2.
Import Processor Worker.

Lemma step_by_fuel_length {A} (f s : nat) (l : list A) :
  length (step_by_fuel f s l) <= length l.
Proof.
  revert l; induction f as [|f IH]; intros l; simpl; [lia|].
  destruct l as [|x rest]; simpl; [lia|].
  specialize (IH (skipn (s - 1) rest)). rewrite length_skipn in IH. lia.
Qed.

Lemma mono_input_length (C : nat) (s xs : list R) :
  mono_input C s = Some xs -> length xs <= length s.
Proof.
  unfold mono_input. destruct (C =? 1).
  - intros E; injection E as <-; lia.
  - destruct (_ && _); [|discriminate].
    intros E; injection E as <-. apply step_by_fuel_length.
Qed.

Lemma process_samples_carry_below fft (p : AudioProcessor) (c : list R) r p1 :
  length (sample_buffer p) < fft_size p -> length c <= fft_size p ->
  process_samples fft p c = (r, p1) ->
  fft_size p1 = fft_size p /\ length (sample_buffer p1) < fft_size p.
Proof.
  intros Hb Hc E. unfold process_samples in E.
  destruct (Nat.leb_spec (fft_size p) (length (sample_buffer p ++ c))) as [Hle|Hlt].
  - destruct (fold_left metrics_step _ _) as [pk ss]. destruct (fft _ _) as [i' o'].
    injection E as <- <-. simpl. rewrite length_skipn, length_app in *. split; lia.
  - injection E as <- <-. simpl. split; lia.
Qed.

Lemma on_chunk_carry_below fft (C : nat) (p : AudioProcessor) (s : list R) r p1 :
  length (sample_buffer p) < fft_size p -> length s <= fft_size p ->
  on_chunk fft C p s = (r, p1) ->
  fft_size p1 = fft_size p /\ length (sample_buffer p1) < fft_size p.
Proof.
  unfold on_chunk. destruct (mono_input C s) as [xs|] eqn:Hm; intros Hb Hs E.
  - apply (process_samples_carry_below fft p xs r p1 Hb); [|exact E].
    pose proof (mono_input_length C s xs Hm). lia.
  - injection E as <- <-. split; [reflexivity|exact Hb].
Qed.

End WorkerFacts2.

Import WorkerFacts2.

(** The analyzer's carry buffer stays bounded in the processing thread: if
    it starts shorter than the FFT size and no received chunk is longer than
    the FFT size (the tap sends chunks of at most [SAMPLES_PER_CHUNK] =
    [DEFAULT_FFT_SIZE] samples), then however many iterations run, the
    buffer stays shorter than the FFT size, which itself never changes. *)
Theorem worker_carry_bounded fft (C : nat) (p : Processor.AudioProcessor)
  (ticks : list Worker.Tick)
  (Hb : length (Processor.sample_buffer p) < Processor.fft_size p)
  (Hc : forall t s, In t ticks -> Worker.recv t = Worker.RecvChunk s ->
                    length s <= Processor.fft_size p) :
  let '(_, p', _) := Worker.run fft C p ticks in
  Processor.fft_size p' = Processor.fft_size p /\
  length (Processor.sample_buffer p') < Processor.fft_size p.
Proof.
  revert p Hb Hc; induction ticks as [|t rest IH]; intros p Hb Hc; simpl; [split; [reflexivity|exact Hb]|].
  assert (Hstep : forall p1, Processor.fft_size p1 = Processor.fft_size p ->
            length (Processor.sample_buffer p1) < Processor.fft_size p ->
            let '(_, p', _) := Worker.run fft C p1 rest in
            Processor.fft_size p' = Processor.fft_size p /\
            length (Processor.sample_buffer p') < Processor.fft_size p).
  { intros p1 Hn Hb1. rewrite <- Hn in Hb1 |- *. apply IH; [exact Hb1|].
    intros t' s Hin Hr. rewrite Hn. apply (Hc t'); [right; exact Hin|exact Hr]. }
  destruct (Worker.poll t); try (split; [reflexivity|exact Hb]).
  destruct (Worker.recv t) as [s| |] eqn:Hr; [|apply Hstep; [reflexivity|exact Hb]|split; [reflexivity|exact Hb]].
  destruct (Worker.on_chunk fft C p s) as [r p1] eqn:E.
  destruct (on_chunk_carry_below fft C p s r p1 Hb (Hc t s (or_introl eq_refl) Hr) E) as [Hn Hb1].
  destruct r as [d|]; [|apply Hstep; assumption].
  destruct (Worker.analysis_send t).
  - specialize (Hstep p1 Hn Hb1). destruct (Worker.run fft C p1 rest) as [[ds p2] e]. exact Hstep.
  - apply Hstep; assumption.
  - split; [exact Hn|exact Hb1].
Qed.

Definition stereo_ticks : list Worker.Tick :=
  [Worker.mkTick Worker.NoSignal (Worker.RecvChunk [1; 1]%R) Broadcaster.SendOk;
   Worker.mkTick Worker.NoSignal Worker.RecvTimeout Broadcaster.SendOk;
   Worker.mkTick Worker.NoSignal (Worker.RecvChunk [1; 1; 1; 1]%R) Broadcaster.SendFull].

Lemma worker_carry_bounded_witness :
  length (Processor.sample_buffer (Processor.new 4)) < Processor.fft_size (Processor.new 4) /\
  (forall t s, In t stereo_ticks -> Worker.recv t = Worker.RecvChunk s ->
               length s <= Processor.fft_size (Processor.new 4)) /\
  (let '(_, p', _) := Worker.run Processor.fft_identity 2 (Processor.new 4) stereo_ticks in
   Processor.fft_size p' = Processor.fft_size (Processor.new 4) /\
   length (Processor.sample_buffer p') < Processor.fft_size (Processor.new 4)).
Proof.
  assert (Hb : length (Processor.sample_buffer (Processor.new 4)) < Processor.fft_size (Processor.new 4))
    by (simpl; lia).
  assert (Hc : forall t s, In t stereo_ticks -> Worker.recv t = Worker.RecvChunk s ->
               length s <= Processor.fft_size (Processor.new 4)).
  { intros t s [<-|[<-|[<-|[]]]] E; simpl in E; try discriminate; injection E as <-; simpl; lia. }
  split; [exact Hb|]. split; [exact Hc|].
  exact (worker_carry_bounded Processor.fft_identity 2 (Processor.new 4) stereo_ticks Hb Hc).
Defined.

Module AppFacts.
Import Manager App.

Lemma drain_analysis_cons (current : option Processor.AudioAnalysisData) d queued :
  drain_analysis current (d :: queued) = drain_analysis (Some d) queued.
Proof. reflexivity. Qed.

Lemma last_default_irrelevant {A} (l : list A) (d d' : A) :
  l <> [] -> last l d = last l d'.
Proof.
  induction l as [|x [|y l] IH]; intros Hl; [congruence|reflexivity|].
  simpl in *. apply IH. discriminate.
Qed.

Lemma trim_nonblank (p : string) : is_empty (trim p) = false -> is_empty p = false.
Proof. destruct p; [vm_compute; discriminate|reflexivity]. Qed.

(** The only path an engine step records is one [load_and_play_file]
    accepted. *)
Lemma engine_step_path (m m' : AudioManager) :
  engine_step m m' ->
  current_file_path m' = current_file_path m \/
  exists p, current_file_path m' = Some p /\ is_empty (trim p) = false.
Proof.
  intros Hs; destruct Hs as [m path env ev r m' H| m | m | m v | m | m | m s Hs Hn].
  - unfold load_and_play_file in H.
    destruct (is_empty (trim path)) eqn:Ep; [injection H as _ _ <-; left; reflexivity|].
    destruct (stop_playback_and_processing m) as [ev1 m1] eqn:Es.
    assert (Hp1 : current_file_path m1 = current_file_path m)
      by (unfold stop_playback_and_processing in Es; injection Es as _ <-; reflexivity).
    destruct (file_opens env path); simpl in H; [|injection H as _ _ <-; left; exact Hp1].
    destruct (decodes env path); [|injection H as _ _ <-; left; exact Hp1].
    right; exists path; split; [|exact Ep].
    destruct (spawn_ok env); simpl in H; [|injection H as _ _ <-; reflexivity].
    destruct (sink_ok env); simpl in H; injection H as _ _ <-; reflexivity.
  - left. unfold pause_playback.
    destruct (state m), (sink m) as [s|]; try reflexivity. destruct (negb _); reflexivity.
  - left. unfold resume_playback.
    destruct (state m), (sink m) as [s|]; try reflexivity. destruct (sink_paused s); reflexivity.
  - left. reflexivity.
  - left. unfold check_and_update_finished_state.
    destruct (sink m) as [s|].
    + destruct (_ && _); reflexivity.
    + destruct (state m); reflexivity.
  - left. reflexivity.
  - left. reflexivity.
Qed.

Lemma reachable_path_nonempty (m : AudioManager) :
  reachable m -> forall p, current_file_path m = Some p -> is_empty p = false.
Proof.
  induction 1 as [v m Hn| m m' Hr IH Hs]; intros p Hp.
  - unfold new in Hn. injection Hn as <-. discriminate Hp.
  - destruct (engine_step_path m m' Hs) as [E|(q & E & Hq)].
    + apply IH. congruence.
    + rewrite E in Hp. injection Hp as <-. apply trim_nonblank. exact Hq.
Qed.

End AppFacts.

Import AppFacts.

(** After the per-frame drain of the analysis channel the visualizer shows
    the newest queued record, or keeps the previous one when nothing was
    queued. *)
Theorem drain_keeps_newest (current : option Processor.AudioAnalysisData)
  (queued : list Processor.AudioAnalysisData) :
  App.drain_analysis current queued = last (map Some queued) current.
Proof.
  revert current; induction queued as [|d rest IH]; intros current; [reflexivity|].
  rewrite drain_analysis_cons, IH. destruct rest as [|e rest]; [reflexivity|].
  change (last (map Some (e :: rest)) (Some d) = last (map Some (e :: rest)) current).
  apply last_default_irrelevant. discriminate.
Qed.

(** Clicking the Play button while it is enabled never ends in the
    "No file path provided" error, in any engine the program can reach:
    the button is only enabled when there is a non-empty path to play, and
    every path the engine records was accepted by [load_and_play_file]. *)
Theorem play_enabled_never_no_path (m : Manager.AudioManager) (input : string)
  (env : Manager.Env) (Hr : Manager.reachable m)
  (He : snd (App.play_button m input) = true) :
  fst (App.play_clicked m input env) <> Some App.NoFilePath.
Proof.
  pose proof (reachable_path_nonempty m Hr) as Hpath.
  unfold App.play_button, App.play_clicked, Manager.get_state,
    Manager.get_current_file_path in *.
  destruct (Manager.current_file_path m) as [p|] eqn:Hp.
  - specialize (Hpath p eq_refl).
    destruct (String.eqb_spec p input) as [Heq|Hne].
    + subst input.
      destruct (Manager.state m); simpl in *; do 3 (rewrite ?Hpath; simpl);
        try discriminate;
        destruct (Manager.load_and_play_file m _ env) as [[? [|?]] ?]; discriminate.
    + destruct (Manager.is_empty input) eqn:Hi;
        destruct (Manager.state m); simpl in *; do 3 (rewrite ?Hpath, ?Hi; simpl);
        try discriminate;
        destruct (Manager.load_and_play_file m _ env) as [[? [|?]] ?]; discriminate.
  - destruct (Manager.is_empty input) eqn:Hi;
      destruct (Manager.state m); simpl in *; do 3 (rewrite ?andb_false_r, ?Hi in *; simpl in *);
      try discriminate;
      destruct (Manager.load_and_play_file m _ env) as [[? [|?]] ?]; discriminate.
Qed.

Lemma play_enabled_never_no_path_witness :
  Manager.reachable loaded_engine /\
  snd (App.play_button loaded_engine ""%string) = true /\
  fst (App.play_clicked loaded_engine ""%string env_all_ok) <> Some App.NoFilePath /\
  Manager.reachable paused_engine /\
  snd (App.play_button paused_engine ""%string) = true /\
  fst (App.play_clicked paused_engine ""%string env_all_ok) <> Some App.NoFilePath.
Proof.
  assert (E1 : snd (App.play_button loaded_engine ""%string) = true) by reflexivity.
  assert (E2 : snd (App.play_button paused_engine ""%string) = true) by reflexivity.
  split; [exact reach_loaded|]. split; [exact E1|]. split.
  { exact (play_enabled_never_no_path loaded_engine ""%string env_all_ok reach_loaded E1). }
  split; [exact reach_paused|]. split; [exact E2|].
  exact (play_enabled_never_no_path paused_engine ""%string env_all_ok reach_paused E2).
Defined.

(* ------------------------------------------------------------------ *)
(** ** From the decoded file to the analysis records *)

Module PipelineFacts.
Import Processor Worker.

(** An iteration that receives chunk [c] with no stop signal pending and
    whose record, if any, the analysis channel accepts. *)
Definition chunk_tick (c : list R) : Tick := mkTick NoSignal (RecvChunk c) Broadcaster.SendOk.

Fixpoint somes {A} (l : list (option A)) : list A :=
  match l with
  | [] => []
  | Some x :: rest => x :: somes rest
  | None :: rest => somes rest
  end.

Lemma somes_count (rs : list (option AudioAnalysisData)) :
  length (somes rs) = count_records rs.
Proof. induction rs as [|[d|] rs IH]; simpl; congruence. Qed.

Lemma process_all_carry_below fft (p : AudioProcessor) (chunks : list (list R)) :
  length (sample_buffer p) < fft_size p ->
  Forall (fun c => length c <= fft_size p) chunks ->
  length (sample_buffer (snd (process_all fft p chunks))) < fft_size p.
Proof.
  revert p; induction chunks as [|c rest IH]; intros p Hb Hc; simpl; [exact Hb|].
  inversion Hc as [|? ? Hc1 Hrest]; subst.
  destruct (process_samples fft p c) as [r p1] eqn:E.
  destruct (process_samples_carry_below fft p c r p1 Hb Hc1 E) as [Hn Hb1].
  specialize (IH p1). rewrite Hn in IH. specialize (IH Hb1 Hrest).
  destruct (process_all fft p1 rest). exact IH.
Qed.

(** The iteration after the tap's source has been dropped by the sink: its
    [SyncSender] is gone, so [recv_timeout] reports a disconnection. *)
Definition end_tick : Tick := mkTick NoSignal RecvDisconnected Broadcaster.SendOk.

(** [fft.process_with_scratch] panics when the scratch slice (here
    [fft_output_buffer], [fft_size] long) is shorter than the plan's
    [get_inplace_scratch_len()]; [scratch_len] is that length. *)
Definition fft_panics (scratch_len C : nat) (p : AudioProcessor) (samples : list R) : bool :=
  match mono_input C samples with
  | Some xs =>
      (fft_size p <=? length (sample_buffer p ++ xs)) &&
      (length (fft_output_buffer p) <? scratch_len)
  | None => false
  end.

(** The processing thread's loop with that panic: [None] as exit reason
    when the thread panicked (the records sent before stay sent). *)
Fixpoint run_checked (scratch_len : nat) fft (source_channels : nat) (processor : AudioProcessor)
  (ticks : list Tick) : list AudioAnalysisData * AudioProcessor * option Exit :=
  match ticks with
  | [] => ([], processor, Some Running)
  | t :: rest =>
      match poll t with
      | Signalled | StopDisconnected => ([], processor, Some ExitStopped)
      | NoSignal =>
          match recv t with
          | RecvTimeout => run_checked scratch_len fft source_channels processor rest
          | RecvDisconnected => ([], processor, Some ExitChunkDisconnected)
          | RecvChunk samples =>
              if fft_panics scratch_len source_channels processor samples
              then ([], processor, None)
              else
              let '(r, p1) := on_chunk fft source_channels processor samples in
              match r with
              | None => run_checked scratch_len fft source_channels p1 rest
              | Some data =>
                  match analysis_send t with
                  | Broadcaster.SendOk =>
                      let '(ds, p2, e) := run_checked scratch_len fft source_channels p1 rest in
                      (data :: ds, p2, e)
                  | Broadcaster.SendFull => run_checked scratch_len fft source_channels p1 rest
                  | Broadcaster.SendDisconnected => ([], p1, Some ExitAnalysisDisconnected)
                  end
              end
          end
      end
  end.

Section FixedSlices.

Variable fft : list Complex -> list Complex -> list Complex * list Complex.
Hypothesis fft_slices : forall i o, length (snd (fft i o)) = length o.

Lemma process_samples_out_len (p : AudioProcessor) (c : list R) r p1 :
  process_samples fft p c = (r, p1) ->
  length (fft_output_buffer p1) = length (fft_output_buffer p).
Proof.
  unfold process_samples.
  destruct (fft_size p <=? length (sample_buffer p ++ c)).
  - destruct (fold_left metrics_step _ _) as [pk ss].
    destruct (fft _ (fft_output_buffer p)) as [i' o'] eqn:Ef.
    intros E. injection E as _ <-. simpl.
    pose proof (fft_slices (windowed_input (firstn (fft_size p) (sample_buffer p ++ c)) (window p))
                  (fft_output_buffer p)) as K.
    rewrite Ef in K. exact K.
  - intros E. injection E as _ <-. reflexivity.
Qed.

Lemma on_chunk_out_len (C : nat) (p : AudioProcessor) (c : list R) r p1 :
  on_chunk fft C p c = (r, p1) ->
  length (fft_output_buffer p1) = length (fft_output_buffer p).
Proof.
  unfold on_chunk. destruct (mono_input C c).
  - apply process_samples_out_len.
  - intros E. injection E as _ <-. reflexivity.
Qed.

Lemma run_checked_no_panic (sl C : nat) (ticks : list Tick) (p : AudioProcessor) :
  sl <= length (fft_output_buffer p) ->
  run_checked sl fft C p ticks =
  let '(ds, p', e) := run fft C p ticks in (ds, p', Some e).
Proof.
  revert p; induction ticks as [|t rest IH]; intros p Hs; simpl; [reflexivity|].
  destruct (poll t); try reflexivity.
  destruct (recv t) as [c| |]; try reflexivity; [|apply IH; exact Hs].
  assert (Hp : fft_panics sl C p c = false).
  { unfold fft_panics. destruct (mono_input C c); [|reflexivity].
    destruct (Nat.ltb_spec (length (fft_output_buffer p)) sl); [lia|].
    apply andb_false_r. }
  rewrite Hp.
  destruct (on_chunk fft C p c) as [r p1] eqn:E.
  pose proof (on_chunk_out_len C p c r p1 E) as Hl.
  destruct r as [d|]; [|apply IH; lia].
  destruct (analysis_send t); try reflexivity; [|apply IH; lia].
  rewrite (IH p1 ltac:(lia)). destruct (run fft C p1 rest) as [[ds p2] e]. reflexivity.
Qed.

End FixedSlices.

Lemma run_mono_chunks_app fft (p : AudioProcessor) (chunks : list (list R)) (rest : list Tick) :
  run fft 1 p (map chunk_tick chunks ++ rest) =
  let '(ds, p2, e) := run fft 1 (snd (process_all fft p chunks)) rest in
  (somes (fst (process_all fft p chunks)) ++ ds, p2, e).
Proof.
  revert p; induction chunks as [|c cs IH]; intros p; simpl.
  - destruct (run fft 1 p rest) as [[ds p2] e]. reflexivity.
  - unfold on_chunk, mono_input. simpl.
    destruct (process_samples fft p c) as [[d|] p1]; simpl; rewrite IH;
      destruct (process_all fft p1 cs) as [rs p3]; simpl;
      destruct (run fft 1 p3 rest) as [[ds p2] e]; reflexivity.
Qed.

Lemma process_samples_short fft (p : AudioProcessor) (c : list R) :
  length (sample_buffer p ++ c) < fft_size p ->
  process_samples fft p c =
  (None, {| fft_size := fft_size p; window := window p;
            fft_input_buffer := fft_input_buffer p;
            fft_output_buffer := fft_output_buffer p;
            sample_buffer := sample_buffer p ++ c |}).
Proof.
  intros H. unfold process_samples.
  destruct (Nat.leb_spec (fft_size p) (length (sample_buffer p ++ c))); [lia|reflexivity].
Qed.

Lemma run_checked_panics fft (sl : nat) (chunks : list (list R)) (p : AudioProcessor) :
  length (fft_output_buffer p) < sl ->
  length (sample_buffer p) < fft_size p ->
  let '(ds, _, e) := run_checked sl fft 1 p (map chunk_tick chunks ++ [end_tick]) in
  ds = [] /\ (e = None <-> fft_size p <= length (sample_buffer p ++ concat chunks)).
Proof.
  revert p; induction chunks as [|c cs IH]; intros p Ho Hb; simpl.
  - rewrite app_nil_r. split; [reflexivity|]. split; [discriminate|lia].
  - unfold fft_panics, mono_input. simpl.
    destruct (Nat.leb_spec (fft_size p) (length (sample_buffer p ++ c))) as [Hle|Hlt].
    + destruct (Nat.ltb_spec (length (fft_output_buffer p)) sl); [|lia]. simpl.
      split; [reflexivity|]. split; [intros _|intros _; reflexivity].
      rewrite app_assoc, length_app. lia.
    + simpl. unfold on_chunk, mono_input. simpl. rewrite (process_samples_short fft p c Hlt).
      specialize (IH {| fft_size := fft_size p; window := window p;
                        fft_input_buffer := fft_input_buffer p;
                        fft_output_buffer := fft_output_buffer p;
                        sample_buffer := sample_buffer p ++ c |} Ho Hlt).
      simpl in IH. rewrite <- app_assoc in IH. exact IH.
Qed.

End PipelineFacts.

Import PipelineFacts.

(** Playing a mono file to its end with the program's wiring (the tap's
    chunk size equal to the analyzer's FFT size [N]), no stop signal and no
    channel dropping anything, until the processing thread sees the chunk
    channel closed.  If the FFT plan's in-place scratch length is at most
    [N] (for the program's [N] = 1024, a power of two, it is [N]), the
    thread sends exactly [L / N] analysis records for the file's [L]
    samples and ends on the closed channel; the last [L mod N] samples stay
    in the analyzer's carry buffer and are never analysed.  If the scratch
    length exceeds [N], the thread sends nothing, and it panics exactly
    when the file has at least [N] samples. *)
Theorem mono_file_record_count fft (scratch_len : nat) (src : Broadcaster.Source) (N : nat)
  (HN : 1 <= N) (Hmono : Broadcaster.src_channels src = 1)
  (Hfft : forall i o, length (snd (fft i o)) = length o) :
  let L := length (Broadcaster.src_samples src) in
  let chunks := Broadcaster.sent (snd (Broadcaster.pull (fun _ => Broadcaster.SendOk)
                   (S L) (Broadcaster.new src N))) in
  let '(records, p', e) :=
    run_checked scratch_len fft (Broadcaster.src_channels src) (Processor.new N)
      (map chunk_tick chunks ++ [end_tick]) in
  (scratch_len <= N ->
     length records = L / N /\ e = Some Worker.ExitChunkDisconnected /\
     Processor.sample_buffer p' = skipn (N * (L / N)) (Broadcaster.src_samples src)) /\
  (N < scratch_len -> records = [] /\ (e = None <-> N <= L)).
Proof.
  intros L chunks. rewrite Hmono.
  assert (Hcat : concat chunks = Broadcaster.src_samples src) by apply tap_stream_whole.
  assert (Hout : length (Processor.fft_output_buffer (Processor.new N)) = N)
    by apply repeat_length.
  destruct (run_checked scratch_len fft 1 (Processor.new N) (map chunk_tick chunks ++ [end_tick]))
    as [[records p'] e] eqn:Erun.
  split.
  - intros Hs.
    rewrite (run_checked_no_panic fft Hfft) in Erun by lia.
    rewrite run_mono_chunks_app in Erun.
    assert (Hok : Forall (fun c => length c <= N) chunks).
    { destruct (pull_chunk_shape (fun _ => Broadcaster.SendOk) (S L) (Broadcaster.new src N)
                  HN ltac:(simpl; lia) (Forall_nil _)) as (_ & _ & K).
      eapply Forall_impl; [|exact K]. intros c Hc. unfold chunk_ok in Hc. simpl in Hc. lia. }
    pose proof (process_all_windows fft (Processor.new N) chunks) as W.
    pose proof (process_all_carry_below fft (Processor.new N) chunks
                  ltac:(simpl; lia) Hok) as Cb.
    destruct (process_all fft (Processor.new N) chunks) as [rs p2] eqn:E. simpl in *.
    rewrite app_nil_r in Erun. injection Erun as <- <- <-.
    destruct W as (_ & _ & Hle & Hbuf). rewrite Hcat in Hle, Hbuf.
    fold L in Hle.
    assert (Hk : count_records rs = L / N).
    { rewrite Hbuf, length_skipn in Cb. fold L in Cb.
      apply (Nat.div_unique L N (count_records rs) (L - N * count_records rs)); lia. }
    rewrite somes_count, Hk. split; [reflexivity|]. split; [reflexivity|].
    rewrite Hbuf, Hk. reflexivity.
  - intros Hs.
    pose proof (run_checked_panics fft scratch_len chunks (Processor.new N)
                  ltac:(lia) ltac:(simpl; lia)) as K.
    rewrite Erun in K. simpl in K. rewrite Hcat in K. exact K.
Qed.

Lemma mono_file_record_count_witness :
  1 <= 2 /\
  Broadcaster.src_channels {| Broadcaster.src_samples := [1; 1; 1; 1; 1]%R;
                              Broadcaster.src_channels := 1; Broadcaster.src_sample_rate := 48;
                              Broadcaster.src_total_duration := None |} = 1 /\
  (forall i o, length (snd (Processor.fft_identity i o)) = length o) /\
  (let src := {| Broadcaster.src_samples := [1; 1; 1; 1; 1]%R;
                 Broadcaster.src_channels := 1; Broadcaster.src_sample_rate := 48;
                 Broadcaster.src_total_duration := None |} in
   let L := length (Broadcaster.src_samples src) in
   let chunks := Broadcaster.sent (snd (Broadcaster.pull (fun _ => Broadcaster.SendOk)
                    (S L) (Broadcaster.new src 2))) in
   let '(records, p', e) :=
     run_checked 2 Processor.fft_identity (Broadcaster.src_channels src) (Processor.new 2)
       (map chunk_tick chunks ++ [end_tick]) in
   length records = L / 2 /\ e = Some Worker.ExitChunkDisconnected /\
   Processor.sample_buffer p' = skipn (2 * (L / 2)) (Broadcaster.src_samples src)) /\
  (let src := {| Broadcaster.src_samples := [1; 1; 1; 1; 1]%R;
                 Broadcaster.src_channels := 1; Broadcaster.src_sample_rate := 48;
                 Broadcaster.src_total_duration := None |} in
   let L := length (Broadcaster.src_samples src) in
   let chunks := Broadcaster.sent (snd (Broadcaster.pull (fun _ => Broadcaster.SendOk)
                    (S L) (Broadcaster.new src 2))) in
   let '(records, p', e) :=
     run_checked 3 Processor.fft_identity (Broadcaster.src_channels src) (Processor.new 2)
       (map chunk_tick chunks ++ [end_tick]) in
   records = [] /\ (e = None <-> 2 <= L)).
Proof.
  assert (Hf : forall i o, length (snd (Processor.fft_identity i o)) = length o)
    by reflexivity.
  split; [lia|]. split; [reflexivity|]. split; [exact Hf|]. split.
  - exact (proj1 (mono_file_record_count Processor.fft_identity 2
           {| Broadcaster.src_samples := [1; 1; 1; 1; 1]%R;
              Broadcaster.src_channels := 1; Broadcaster.src_sample_rate := 48;
              Broadcaster.src_total_duration := None |} 2 ltac:(lia) eq_refl Hf) ltac:(lia)).
  - exact (proj2 (mono_file_record_count Processor.fft_identity 3
           {| Broadcaster.src_samples := [1; 1; 1; 1; 1]%R;
              Broadcaster.src_channels := 1; Broadcaster.src_sample_rate := 48;
              Broadcaster.src_total_duration := None |} 2 ltac:(lia) eq_refl Hf) ltac:(lia)).
Defined.
